(** * botorch.utils.objective: feasibility weighting of objectives

    A shallow embedding of [botorch/utils/objective.py].  Tensors are a
    shape together with their elements in row-major order; the elements of
    a floating-point tensor are real numbers, the exact arithmetic that the
    floating-point code approximates.  Python exceptions are an error
    result, and the two observable effects of the module (a constraint
    callable being invoked, a warning being emitted) are recorded in a
    trace that is threaded through every call. *)

From Stdlib Require Import String Reals Lra Lia List Arith Bool Permutation.
Import ListNotations.

Open Scope R_scope.

(** ** Tensors *)

Record tensor (A : Type) : Type := mkTensor {
  shape : list nat;
  data : list A
}.

Arguments mkTensor {A} shape data.
Arguments shape {A} t.
Arguments data {A} t.

(** Number of elements of a shape ([torch.Size.numel]). *)
Definition numel (s : list nat) : nat := fold_right Nat.mul 1%nat s.

(** [t.dim()] *)
Definition dim {A} (t : tensor A) : nat := length (shape t).

(** Elementwise application of a unary function ([-t], [t.exp()],
    [t < 0], [t.add(c)], [t / e] for a 0-dim [e], ...). *)
Definition tmap {A B} (f : A -> B) (t : tensor A) : tensor B :=
  mkTensor (shape t) (map f (data t)).

(** The tensor of shape [s] whose element at row-major position [i] is
    [g i]. *)
Definition tabulate {A} (s : list nat) (g : nat -> A) : tensor A :=
  mkTensor s (map g (seq 0 (numel s))).

(** [torch.full(size, v)], also [torch.ones] and [torch.zeros]. *)
Definition full {A} (s : list nat) (v : A) : tensor A :=
  mkTensor s (repeat v (numel s)).

(** [torch.zeros_like(t)] *)
Definition zeros_like (t : tensor R) : tensor R := full (shape t) 0.

(** [t.unsqueeze(-1)] *)
Definition unsqueeze_last {A} (t : tensor A) : tensor A :=
  mkTensor (shape t ++ [1%nat]) (data t).

(** [t.squeeze(-1)]: drops the last axis when its size is 1 and leaves the
    tensor alone otherwise. *)
Definition squeeze_last {A} (t : tensor A) : tensor A :=
  match rev (shape t) with
  | 1%nat :: _ => mkTensor (removelast (shape t)) (data t)
  | _ => t
  end.

(** Exceptions raised by the module or by the tensor operations it uses. *)
Inductive error : Type :=
| ValueError (msg : string)
| IndexError
| RuntimeError
| TypeError.

Definition result (A : Type) : Type := (error + A)%type.

(** [t[..., 0]]: an [IndexError] on a 0-dim tensor or on an empty last
    axis. *)
Definition select_last0 (t : tensor R) : result (tensor R) :=
  match rev (shape t) with
  | [] => inl IndexError
  | m :: _ =>
      if (m =? 0)%nat then inl IndexError
      else
        inr (tabulate (removelast (shape t)) (fun i => nth (i * m) (data t) 0))
  end.

(** *** Broadcasting

    Shapes are aligned on their last axis, so the helpers work on reversed
    shapes (innermost axis first). *)

Fixpoint bshape_rev (s1 s2 : list nat) : option (list nat) :=
  match s1, s2 with
  | [], _ => Some s2
  | _, [] => Some s1
  | d1 :: r1, d2 :: r2 =>
      match bshape_rev r1 r2 with
      | Some r =>
          if (d1 =? d2)%nat then Some (d1 :: r)
          else if (d1 =? 1)%nat then Some (d2 :: r)
          else if (d2 =? 1)%nat then Some (d1 :: r)
          else None
      | None => None
      end
  end.

(** Position, in the row-major data of an operand of (reversed) shape [s],
    of the element that lands at row-major position [i] of the broadcast
    result of (reversed) shape [out]. *)
Fixpoint bindex_rev (s out : list nat) (i : nat) : nat :=
  match s, out with
  | d :: s', o :: out' =>
      ((if (d =? 1)%nat then 0 else i mod o) + d * bindex_rev s' out' (i / o))%nat
  | _, _ => 0%nat
  end.

(** Elementwise binary operation with broadcasting ([a + b], [a.mul(b)],
    [a.logical_and(b)]); a [RuntimeError] when the shapes do not
    broadcast. *)
Definition map2b {A B C} (da : A) (db : B) (f : A -> B -> C)
    (a : tensor A) (b : tensor B) : result (tensor C) :=
  let ra := rev (shape a) in
  let rb := rev (shape b) in
  match bshape_rev ra rb with
  | None => inl RuntimeError
  | Some ro =>
      inr (tabulate (rev ro)
             (fun i => f (nth (bindex_rev ra ro i) (data a) da)
                         (nth (bindex_rev rb ro i) (data b) db)))
  end.

Definition tadd : tensor R -> tensor R -> result (tensor R) := map2b 0 0 Rplus.
Definition tmul : tensor R -> tensor R -> result (tensor R) := map2b 0 0 Rmult.
Definition logical_and : tensor bool -> tensor bool -> result (tensor bool) :=
  map2b false false andb.

(** Sum of a list of reals. *)
Definition Rsum (l : list R) : R := fold_right Rplus 0 l.

(** Product of a list of reals. *)
Definition Rprod (l : list R) : R := fold_right Rmult 1 l.

(** [torch.einsum("...m, m", [Y, w])] for a 1-dim [w]: the last axis of
    [Y] is contracted with [w].  As everywhere in einsum, the two sizes
    of the contracted axis must agree or one of them be 1. *)
Definition einsum_m (Y : tensor R) (w : list R) : result (tensor R) :=
  match rev (shape Y) with
  | [] => inl RuntimeError
  | m :: _ =>
      let n := length w in
      if ((m =? n) || (m =? 1) || (n =? 1))%nat then
        let k := if (m =? 1)%nat then n else m in
        inr (tabulate (removelast (shape Y))
               (fun i =>
                  Rsum (map (fun j =>
                               nth (i * m + (if (m =? 1)%nat then 0 else j)) (data Y) 0
                               * nth (if (n =? 1)%nat then 0 else j) w 0)
                            (seq 0 k))))
      else inl RuntimeError
  end.

(** Decision of [x < y] as a boolean. *)
Definition Rltb (x y : R) : bool := if Rlt_dec x y then true else false.
Definition Rleb (x y : R) : bool := if Rle_dec x y then true else false.

(** ** Effects *)

(** What a caller can observe besides the returned value: the call of the
    [i]-th callable of the constraint list, and a warning. *)
Inductive event : Type :=
| Invoked (i : nat)
| Warned (category : string).

Definition trace : Type := list event.

(** A computation reads the trace so far and returns a value or an
    exception, with the trace extended by what it did before that. *)
Definition M (A : Type) : Type := trace -> result A * trace.

Definition ret {A} (a : A) : M A := fun tr => (inr a, tr).

Definition bind {A B} (m : M A) (k : A -> M B) : M B :=
  fun tr =>
    match m tr with
    | (inr a, tr') => k a tr'
    | (inl e, tr') => (inl e, tr')
    end.

Definition raise {A} (e : error) : M A := fun tr => (inl e, tr).

Definition tell (ev : event) : M unit := fun tr => (inr tt, tr ++ [ev]).

Definition lift {A} (r : result A) : M A := fun tr => (r, tr).

Notation "x <- m ;; k" := (bind m (fun x => k))
  (at level 61, m at next level, right associativity).
Notation "m ;;; k" := (bind m (fun _ => k))
  (at level 61, right associativity).

(** The value a computation returns when started on the empty trace. *)
Definition run {A} (m : M A) : result A := fst (m []).

(** ** The kernels of [botorch.utils.safe_math] *)

(** [torch.sigmoid] *)
Definition sigmoid (x : R) : R := 1 / (1 + exp (- x)).

(** Modelled from the spec: [logexpit] of [botorch.utils.safe_math], which
    is not part of the sources at hand; the spec gives it as
    log(sigmoid(x)). *)
Definition logexpit (x : R) : R := ln (sigmoid x).

(** A constraint callable: a pure function of the sample batch. *)
Definition constraint : Type := tensor R -> tensor R.

(** The temperature argument: a Python float or a 1-dim tensor. *)
Inductive eta_arg : Type :=
| EtaFloat (e : R)
| EtaTensor (es : list R).

(** Calling the [i]-th callable of the constraint list. *)
Definition invoke (i : nat) (c : constraint) (x : tensor R) : M (tensor R) :=
  tell (Invoked i) ;;; ret (c x).

Section Objective.

(** [log_fatmoid] of [botorch.utils.safe_math] is not part of the sources
    at hand and the spec gives no formula for it: it stays a parameter. *)
Variable log_fatmoid : R -> R.

(** *** [get_objective_weights_transform]

    The callable is applied to [Y] and, optionally, to a second positional
    argument [X].  The callable built without weights is
    [lambda Y: Y.squeeze(-1)], which takes [Y] alone. *)
Definition get_objective_weights_transform (weights : option (list R))
    (Y : tensor R) (X : option (tensor R)) : result (tensor R) :=
  match weights with
  | None =>
      match X with
      | None => inr (squeeze_last Y)
      | Some _ => inl TypeError
      end
  | Some w => einsum_m Y w
  end.

(** *** [compute_feasibility_indicator] *)

(** The body of [for constraint in constraints], the callables numbered
    from [i]. *)
Fixpoint feasibility_loop (samples : tensor R) (i : nat)
    (constraints : list constraint) (ind : tensor bool) : M (tensor bool) :=
  match constraints with
  | [] => ret ind
  | c :: rest =>
      v <- invoke i c samples ;;
      ind' <- lift (logical_and ind (tmap (fun x => Rltb x 0) v)) ;;
      feasibility_loop samples (S i) rest ind'
  end.

Definition compute_feasibility_indicator (constraints : option (list constraint))
    (samples : tensor R) : M (tensor bool) :=
  let ind := full (removelast (shape samples)) true in
  match constraints with
  | Some cs => feasibility_loop samples 0 cs ind
  | None => ret ind
  end.

(** *** [compute_smoothed_feasibility_indicator] *)

(** The body of [for constraint, e in zip(constraints, eta)]. *)
Fixpoint smoothed_loop (log_sigmoid : R -> R) (samples : tensor R) (i : nat)
    (ces : list (constraint * R)) (is_feasible : tensor R) : M (tensor R) :=
  match ces with
  | [] => ret is_feasible
  | (c, e) :: rest =>
      v <- invoke i c samples ;;
      acc <- lift (tadd is_feasible
                     (tmap log_sigmoid (tmap (fun x => x / e) (tmap Ropp v)))) ;;
      smoothed_loop log_sigmoid samples (S i) rest acc
  end.

Definition count_mismatch_msg : string :=
  "Number of provided constraints and number of provided etas do not match."%string.

Definition positive_msg : string := "eta must be positive."%string.

Definition compute_smoothed_feasibility_indicator
    (constraints : list constraint) (samples : tensor R) (eta : eta_arg)
    (log fat : bool) : M (tensor R) :=
  let eta :=
    match eta with
    | EtaFloat e => repeat e (length constraints)
    | EtaTensor es => es
    end in
  if negb (length eta =? length constraints)%nat then
    raise (ValueError count_mismatch_msg)
  else if negb (forallb (fun e => Rltb 0 e) eta) then
    raise (ValueError positive_msg)
  else
    x0 <- lift (select_last0 samples) ;;
    let is_feasible := zeros_like x0 in
    let log_sigmoid := if fat then log_fatmoid else logexpit in
    is_feasible <- smoothed_loop log_sigmoid samples 0
                     (combine constraints eta) is_feasible ;;
    ret (if log then is_feasible else tmap exp is_feasible).

(** *** [apply_constraints_nonnegative_soft] *)

Definition apply_constraints_nonnegative_soft (obj : tensor R)
    (constraints : list constraint) (samples : tensor R) (eta : eta_arg)
    : M (tensor R) :=
  w <- compute_smoothed_feasibility_indicator constraints samples eta false false ;;
  let w := if (dim obj =? dim samples)%nat then unsqueeze_last w else w in
  lift (tmul (tmap (fun x => Rmax x 0) obj) w).

(** *** [soft_eval_constraint] *)

Definition deprecation : string := "DeprecationWarning"%string.

Definition soft_eval_constraint (lhs : tensor R) (eta : R) : M (tensor R) :=
  tell (Warned deprecation) ;;;
  if Rleb eta 0 then raise (ValueError positive_msg)
  else ret (tmap sigmoid (tmap (fun x => x / eta) (tmap Ropp lhs))).

(** *** [apply_constraints] *)

Definition apply_constraints (obj : tensor R) (constraints : list constraint)
    (samples : tensor R) (infeasible_cost : R) (eta : eta_arg) : M (tensor R) :=
  let obj := tmap (fun x => x + infeasible_cost) obj in
  obj <- apply_constraints_nonnegative_soft obj constraints samples eta ;;
  ret (tmap (fun x => x + - infeasible_cost) obj).

End Objective.

(** ** Shapes of the data model *)

(** A tensor of shape [s] that holds as many elements as [s] announces. *)
Definition shaped {A} (s : list nat) (t : tensor A) : Prop :=
  shape t = s /\ length (data t) = numel s.

(** The constraint callables of the data model: on the sample batch they
    return one value per entry of the batch shape (the sample shape
    without its outcome axis). *)
Definition respects (batch : list nat) (samples : tensor R)
    (constraints : list constraint) : Prop :=
  Forall (fun c => shaped batch (c samples)) constraints.

(** The temperatures the smoothed indicator works with, one per
    constraint. *)
Definition etas_of (k : nat) (eta : eta_arg) : list R :=
  match eta with
  | EtaFloat e => repeat e k
  | EtaTensor es => es
  end.

(** A temperature argument that passes validation for [k] constraints. *)
Definition valid_eta (k : nat) (eta : eta_arg) : Prop :=
  length (etas_of k eta) = k /\ Forall (fun e => 0 < e) (etas_of k eta).

(** The callable that reports every entry as feasible: it returns -1 on
    the whole batch shape. *)
Definition always_feasible : constraint :=
  fun samples => full (removelast (shape samples)) (-1).

(** One term of the log-space sum: the kernel at the negated constraint
    value divided by the temperature. *)
Definition log_term (log_sigmoid : R -> R) (samples : tensor R) (j : nat)
    (ce : constraint * R) : R :=
  log_sigmoid (- nth j (data (fst ce samples)) 0 / snd ce).

(** The kernel the smoothed indicator selects. *)
Definition kernel (log_fatmoid : R -> R) (fat : bool) : R -> R :=
  if fat then log_fatmoid else logexpit.

(** The log-space feasibility of entry [j] of the batch: the sum of the
    terms of all (constraint, temperature) pairs. *)
Definition log_feasibility (log_sigmoid : R -> R) (samples : tensor R)
    (ces : list (constraint * R)) (j : nat) : R :=
  Rsum (map (log_term log_sigmoid samples j) ces).

(** The feasibility weight of entry [j] of the batch: the non-log,
    non-fat smoothed indicator. *)
Definition weight (samples : tensor R) (ces : list (constraint * R)) (j : nat) : R :=
  exp (log_feasibility logexpit samples ces j).

(** ** Concrete inputs *)

(** The callable [lambda Y: Y[..., 0]] on a batch with an outcome axis:
    the first outcome must be negative. *)
Definition outcome0 : constraint :=
  fun samples =>
    match select_last0 samples with
    | inr x => x
    | inl _ => samples
    end.

(** Two candidate points with two outcomes each. *)
Definition ex_samples : tensor R := mkTensor [2; 2]%nat [1; -1; -2; 3].

Definition ex_constraints : list constraint := [always_feasible; outcome0].

(** An objective with a per-outcome axis of size 3 over the two points. *)
Definition ex_obj : tensor R := mkTensor [2; 3]%nat [1; -1; 2; 0; 3; -2].

(** * Properties *)

(** ** Lists and tensors *)

Lemma numel_cons (d : nat) (s : list nat) : numel (d :: s) = (d * numel s)%nat.
Proof. reflexivity. Qed.

Lemma numel_app (s1 s2 : list nat) :
  numel (s1 ++ s2) = (numel s1 * numel s2)%nat.
Proof.
  induction s1 as [|d s1 IH].
  - change (numel [] ) with 1%nat. cbn [app]. lia.
  - cbn [app]. rewrite !numel_cons, IH. lia.
Qed.

Lemma numel_rev (s : list nat) : numel (rev s) = numel s.
Proof.
  induction s as [|d s IH]; [reflexivity|].
  cbn [rev]. rewrite numel_app, IH, !numel_cons.
  change (numel []) with 1%nat. lia.
Qed.

Lemma nth_map_seq {A} (g : nat -> A) (n i : nat) (d : A) :
  (i < n)%nat -> nth i (map g (seq 0 n)) d = g i.
Proof.
  intros Hi.
  rewrite (nth_indep _ d (g 0%nat)) by (rewrite length_map, length_seq; exact Hi).
  rewrite (map_nth g (seq 0 n) 0%nat i), seq_nth by exact Hi.
  reflexivity.
Qed.

Lemma nth_map_lt {A B} (f : A -> B) (l : list A) (i : nat) (da : A) (db : B) :
  (i < length l)%nat -> nth i (map f l) db = f (nth i l da).
Proof.
  intros Hi.
  rewrite (nth_indep _ db (f da)) by (rewrite length_map; exact Hi).
  apply map_nth.
Qed.

Lemma shape_tabulate {A} (s : list nat) (g : nat -> A) : shape (tabulate s g) = s.
Proof. reflexivity. Qed.

Lemma length_tabulate {A} (s : list nat) (g : nat -> A) :
  length (data (tabulate s g)) = numel s.
Proof. cbn. rewrite length_map, length_seq. reflexivity. Qed.

Lemma shaped_tabulate {A} (s : list nat) (g : nat -> A) : shaped s (tabulate s g).
Proof. split; [reflexivity | apply length_tabulate]. Qed.

Lemma nth_tabulate {A} (s : list nat) (g : nat -> A) (i : nat) (d : A) :
  (i < numel s)%nat -> nth i (data (tabulate s g)) d = g i.
Proof. intros Hi. cbn. apply nth_map_seq, Hi. Qed.

Lemma tabulate_ext {A} (s : list nat) (g h : nat -> A) :
  (forall i, (i < numel s)%nat -> g i = h i) -> tabulate s g = tabulate s h.
Proof.
  intros Hgh. unfold tabulate. f_equal.
  apply map_ext_in. intros i Hi. apply in_seq in Hi. apply Hgh. lia.
Qed.

Lemma tmap_tabulate {A B} (f : A -> B) (s : list nat) (g : nat -> A) :
  tmap f (tabulate s g) = tabulate s (fun i => f (g i)).
Proof. unfold tmap, tabulate. cbn. rewrite map_map. reflexivity. Qed.

(** A tensor is the table of its elements. *)
Lemma shaped_eq_tabulate {A} (d : A) (s : list nat) (t : tensor A) :
  shaped s t -> t = tabulate s (fun i => nth i (data t) d).
Proof.
  destruct t as [sh dt]. intros [Hs Hl]. cbn in *. subst sh.
  unfold tabulate. f_equal. cbn.
  apply (nth_ext _ _ d d).
  - rewrite length_map, length_seq. exact Hl.
  - intros i Hi. rewrite nth_map_seq by lia. reflexivity.
Qed.

Lemma full_eq_tabulate {A} (s : list nat) (v : A) : full s v = tabulate s (fun _ => v).
Proof.
  unfold full, tabulate. f_equal.
  induction (numel s) as [|n IH]; [reflexivity|].
  rewrite seq_S, map_app, <- IH. cbn. apply repeat_cons.
Qed.

Lemma shaped_full {A} (s : list nat) (v : A) : shaped s (full s v).
Proof. rewrite full_eq_tabulate. apply shaped_tabulate. Qed.

Lemma shaped_tmap {A B} (f : A -> B) (s : list nat) (t : tensor A) :
  shaped s t -> shaped s (tmap f t).
Proof. intros [Hs Hl]. split; cbn; [exact Hs | rewrite length_map; exact Hl]. Qed.

Lemma nth_tmap {A B} (f : A -> B) (s : list nat) (t : tensor A) (i : nat) (da : A) (db : B) :
  shaped s t -> (i < numel s)%nat -> nth i (data (tmap f t)) db = f (nth i (data t) da).
Proof. intros [_ Hl] Hi. cbn. apply nth_map_lt. lia. Qed.

(** *** Broadcasting of equal shapes and of a trailing singleton axis *)

Lemma bshape_rev_same (s : list nat) : bshape_rev s s = Some s.
Proof.
  induction s as [|d s IH]; [reflexivity|].
  cbn. rewrite IH, Nat.eqb_refl. reflexivity.
Qed.

Lemma bindex_rev_same (s : list nat) (i : nat) :
  (i < numel s)%nat -> bindex_rev s s i = i.
Proof.
  revert i. induction s as [|d s IH]; intros i Hi; cbn in *.
  - lia.
  - fold (numel s) in Hi.
    assert (Hd : d <> 0%nat) by (intros ->; lia).
    assert (Hq : (i / d < numel s)%nat) by (apply Nat.Div0.div_lt_upper_bound; lia).
    rewrite (IH _ Hq).
    destruct (Nat.eqb_spec d 1) as [->|Hne].
    + rewrite Nat.div_1_r. lia.
    + pose proof (Nat.div_mod_eq i d). lia.
Qed.

Lemma map2b_same {A B C} (da : A) (db : B) (f : A -> B -> C) (s : list nat)
    (a : tensor A) (b : tensor B) :
  shape a = s -> shape b = s ->
  map2b da db f a b
  = inr (tabulate s (fun i => f (nth i (data a) da) (nth i (data b) db))).
Proof.
  intros Ha Hb. unfold map2b. rewrite Ha, Hb, bshape_rev_same, rev_involutive.
  f_equal. apply tabulate_ext. intros i Hi.
  rewrite bindex_rev_same by (rewrite numel_rev; exact Hi). reflexivity.
Qed.

Lemma nth_Forall {A} (P : A -> Prop) (l : list A) (d : A) (i : nat) :
  Forall P l -> P d -> P (nth i l d).
Proof.
  intros Hl Hd. destruct (Nat.lt_ge_cases i (length l)) as [Hlt|Hge].
  - rewrite Forall_forall in Hl. apply Hl, nth_In, Hlt.
  - rewrite nth_overflow by exact Hge. exact Hd.
Qed.

(** A property of the elements that the operation and the padding values
    respect carries over to every broadcast result. *)
Lemma map2b_Forall {A B C} (P : A -> Prop) (Q : B -> Prop) (T : C -> Prop)
    (da : A) (db : B) (f : A -> B -> C) (a : tensor A) (b : tensor B) (r : tensor C) :
  (forall x y, P x -> Q y -> T (f x y)) ->
  P da -> Q db ->
  Forall P (data a) -> Forall Q (data b) ->
  map2b da db f a b = inr r ->
  Forall T (data r).
Proof.
  intros Hf Hda Hdb Ha Hb Hr. unfold map2b in Hr.
  destruct (bshape_rev (rev (shape a)) (rev (shape b))) as [ro|]; [|discriminate].
  injection Hr as <-. cbn [tabulate data]. apply Forall_forall.
  intros x Hx. apply in_map_iff in Hx as [i [<- _]].
  apply Hf; apply nth_Forall; assumption.
Qed.

Lemma bshape_rev_trailing (m : nat) (s : list nat) :
  bshape_rev (m :: s) (1%nat :: s) = Some (m :: s).
Proof.
  cbn. rewrite bshape_rev_same.
  destruct (Nat.eqb_spec m 1) as [->|Hne]; [reflexivity|].
  destruct (Nat.eqb_spec m 1); [contradiction | reflexivity].
Qed.

Lemma bindex_rev_trailing (m : nat) (s : list nat) (i : nat) :
  (i < numel (m :: s))%nat -> bindex_rev (1%nat :: s) (m :: s) i = (i / m)%nat.
Proof.
  intros Hi. rewrite numel_cons in Hi. cbn [bindex_rev Nat.eqb].
  assert (Hd : m <> 0%nat) by (intros ->; lia).
  rewrite bindex_rev_same by (apply Nat.Div0.div_lt_upper_bound; lia).
  lia.
Qed.

(** An operand with a trailing axis of size [m] against one with a
    trailing singleton axis: every element of the second is used for the
    [m] consecutive elements of the first. *)
Lemma map2b_trailing {A B C} (da : A) (db : B) (f : A -> B -> C)
    (batch : list nat) (m : nat) (a : tensor A) (b : tensor B) :
  shape a = batch ++ [m] -> shape b = batch ++ [1%nat] ->
  map2b da db f a b
  = inr (tabulate (batch ++ [m])
           (fun i => f (nth i (data a) da) (nth (i / m) (data b) db))).
Proof.
  intros Ha Hb. unfold map2b. rewrite Ha, Hb, !rev_app_distr. cbn [rev app].
  rewrite bshape_rev_trailing. cbn [rev]. rewrite rev_involutive.
  f_equal. apply tabulate_ext. intros i Hi.
  assert (Hi' : (i < numel (m :: rev batch))%nat).
  { rewrite numel_app in Hi. rewrite numel_cons, numel_rev. cbn in Hi. lia. }
  rewrite bindex_rev_same by exact Hi'.
  rewrite bindex_rev_trailing by exact Hi'. reflexivity.
Qed.

(** ** Sigmoid and its logarithm *)

Lemma sigmoid_pos (x : R) : 0 < sigmoid x.
Proof.
  unfold sigmoid. pose proof (exp_pos (- x)).
  apply Rdiv_lt_0_compat; lra.
Qed.

Lemma sigmoid_lt_1 (x : R) : sigmoid x < 1.
Proof.
  unfold sigmoid. pose proof (exp_pos (- x)) as He.
  apply (Rmult_lt_reg_r (1 + exp (- x))); [lra|].
  unfold Rdiv. rewrite Rmult_assoc, Rinv_l by lra. lra.
Qed.

Lemma exp_logexpit (x : R) : exp (logexpit x) = sigmoid x.
Proof. unfold logexpit. apply exp_ln, sigmoid_pos. Qed.

Lemma logexpit_neg (x : R) : logexpit x < 0.
Proof.
  unfold logexpit. rewrite <- ln_1.
  apply ln_increasing; [apply sigmoid_pos | apply sigmoid_lt_1].
Qed.

(** What the sigmoid leaves out of 1. *)
Lemma sigmoid_compl (x : R) : 1 - sigmoid x = 1 / (1 + exp x).
Proof.
  unfold sigmoid. rewrite exp_Ropp. pose proof (exp_pos x) as He.
  field. split; lra.
Qed.

Lemma sigmoid_opp (x : R) : sigmoid (- x) = 1 - sigmoid x.
Proof.
  rewrite sigmoid_compl. unfold sigmoid. rewrite Ropp_involutive. reflexivity.
Qed.

Lemma sigmoid_compl_le_exp (x : R) : 1 - sigmoid x <= exp (- x).
Proof.
  rewrite sigmoid_compl, exp_Ropp. pose proof (exp_pos x) as He.
  unfold Rdiv. rewrite Rmult_1_l.
  apply Rinv_le_contravar; lra.
Qed.

Lemma exp_nonpos_le_1 (x : R) : x <= 0 -> 0 <= exp x <= 1.
Proof.
  intros Hx. split; [left; apply exp_pos|].
  destruct Hx as [Hx| ->]; [|rewrite exp_0; lra].
  rewrite <- exp_0. left. apply exp_increasing, Hx.
Qed.

Lemma Rsum_nonpos (l : list R) : Forall (fun x => x <= 0) l -> Rsum l <= 0.
Proof.
  induction 1 as [|x l Hx _ IH]; unfold Rsum in *; cbn; lra.
Qed.

Lemma exp_Rsum (l : list R) : exp (Rsum l) = Rprod (map exp l).
Proof.
  induction l as [|x l IH]; cbn.
  - apply exp_0.
  - rewrite exp_plus. fold (Rsum l) (Rprod (map exp l)). rewrite IH. reflexivity.
Qed.

Lemma fold_left_Rplus (l : list R) (a : R) : fold_left Rplus l a = a + Rsum l.
Proof.
  revert a. induction l as [|x l IH]; intros a; cbn.
  - lra.
  - rewrite IH. fold (Rsum l). lra.
Qed.

Lemma Rltb_true (x y : R) : Rltb x y = true <-> x < y.
Proof. unfold Rltb. destruct (Rlt_dec x y); split; intros; (easy || lra). Qed.

Lemma Rleb_true (x y : R) : Rleb x y = true <-> x <= y.
Proof. unfold Rleb. destruct (Rle_dec x y); split; intros; (easy || lra). Qed.

Lemma forallb_pos (l : list R) :
  forallb (fun e => Rltb 0 e) l = true <-> Forall (fun e => 0 < e) l.
Proof.
  rewrite forallb_forall, Forall_forall.
  split; intros H x Hx; apply Rltb_true, H, Hx.
Qed.

(** ** The loops over the constraints *)

Lemma trace_step (tr : trace) (i n : nat) :
  (tr ++ [Invoked i]) ++ map Invoked (seq (S i) n)
  = tr ++ map Invoked (seq i (S n)).
Proof. rewrite <- app_assoc. reflexivity. Qed.

Lemma smoothed_loop_spec (ls : R -> R) (samples : tensor R) (batch : list nat)
    (ces : list (constraint * R)) :
  forall (i : nat) (acc : tensor R) (tr : trace),
    Forall (fun ce => shaped batch (fst ce samples)) ces ->
    shaped batch acc ->
    smoothed_loop ls samples i ces acc tr
    = (inr (tabulate batch
              (fun j => nth j (data acc) 0 + Rsum (map (log_term ls samples j) ces))),
       tr ++ map Invoked (seq i (length ces))).
Proof.
  induction ces as [|[c e] rest IH]; intros i acc tr Hces Hacc.
  - cbn. rewrite app_nil_r. unfold ret. f_equal. f_equal.
    rewrite (shaped_eq_tabulate 0 batch acc Hacc) at 1.
    apply tabulate_ext. intros j _. lra.
  - inversion Hces as [|ce l Hc Hrest]; subst. cbn [fst] in Hc.
    cbn [smoothed_loop]. unfold bind at 1. unfold invoke, bind, tell, ret.
    unfold lift, tadd.
    rewrite (map2b_same 0 0 Rplus batch) by (try apply Hacc; cbn; apply Hc).
    rewrite IH by (try assumption; apply shaped_tabulate).
    rewrite trace_step. f_equal. f_equal.
    apply tabulate_ext. intros j Hj.
    rewrite nth_tabulate by exact Hj.
    rewrite (nth_tmap ls batch _ j 0 0); [|repeat apply shaped_tmap; exact Hc|exact Hj].
    rewrite (nth_tmap _ batch _ j 0 0); [|repeat apply shaped_tmap; exact Hc|exact Hj].
    rewrite (nth_tmap Ropp batch _ j 0 0); [|exact Hc|exact Hj].
    cbn [map Rsum fold_right]. unfold log_term at 2. cbn [fst snd].
    fold (Rsum (map (log_term ls samples j) rest)). lra.
Qed.

Lemma feasibility_loop_spec (samples : tensor R) (batch : list nat)
    (cs : list constraint) :
  forall (i : nat) (ind : tensor bool) (tr : trace),
    respects batch samples cs ->
    shaped batch ind ->
    feasibility_loop samples i cs ind tr
    = (inr (tabulate batch
              (fun j => nth j (data ind) false
                        && forallb (fun c => Rltb (nth j (data (c samples)) 0) 0) cs)),
       tr ++ map Invoked (seq i (length cs))).
Proof.
  induction cs as [|c rest IH]; intros i ind tr Hcs Hind.
  - cbn. rewrite app_nil_r. unfold ret. f_equal. f_equal.
    rewrite (shaped_eq_tabulate false batch ind Hind) at 1.
    apply tabulate_ext. intros j _. rewrite andb_true_r. reflexivity.
  - inversion Hcs as [|c' l Hc Hrest]; subst.
    cbn [feasibility_loop]. unfold bind at 1. unfold invoke, bind, tell, ret.
    unfold lift, logical_and.
    rewrite (map2b_same false false andb batch) by (try apply Hind; cbn; apply Hc).
    rewrite IH by (try assumption; apply shaped_tabulate).
    rewrite trace_step. f_equal. f_equal.
    apply tabulate_ext. intros j Hj.
    rewrite nth_tabulate by exact Hj.
    rewrite (nth_tmap _ batch _ j 0 false); [|exact Hc|exact Hj].
    cbn [forallb]. rewrite andb_assoc. reflexivity.
Qed.

Lemma Forall_combine_fst {A B} (P : A -> Prop) (la : list A) (lb : list B) :
  Forall P la -> Forall (fun ab => P (fst ab)) (combine la lb).
Proof.
  intros H. revert lb. induction H as [|a la Ha _ IH]; intros [|b lb]; cbn;
    constructor; auto.
Qed.

Lemma select_last0_shape (samples : tensor R) (batch : list nat) (m : nat) :
  shape samples = batch ++ [m] -> (0 < m)%nat ->
  exists x0, select_last0 samples = inr x0 /\ shape x0 = batch.
Proof.
  intros Hs Hm. unfold select_last0.
  rewrite Hs, rev_app_distr, removelast_last. cbn [rev app].
  destruct (Nat.eqb_spec m 0) as [->|_]; [lia|].
  eexists. split; reflexivity.
Qed.

Section Smoothed.

Variable log_fatmoid : R -> R.

(** The smoothed indicator on inputs of the data model: validation
    passes, every callable is invoked once and in order, and entry [j] of
    the result is the log-space sum, exponentiated unless [log] is set. *)
Lemma smoothed_indicator_spec (cs : list constraint) (samples : tensor R)
    (eta : eta_arg) (log fat : bool) (batch : list nat) (m : nat) (tr : trace) :
  valid_eta (length cs) eta ->
  shape samples = batch ++ [m] -> (0 < m)%nat ->
  respects batch samples cs ->
  compute_smoothed_feasibility_indicator log_fatmoid cs samples eta log fat tr
  = (inr (tabulate batch
            (fun j =>
               let l := log_feasibility (kernel log_fatmoid fat) samples
                          (combine cs (etas_of (length cs) eta)) j in
               if log then l else exp l)),
     tr ++ map Invoked (seq 0 (length cs))).
Proof.
  intros [Hlen Hpos] Hs Hm Hcs.
  unfold compute_smoothed_feasibility_indicator.
  change (match eta with EtaFloat e => repeat e (length cs) | EtaTensor es => es end)
    with (etas_of (length cs) eta).
  rewrite Hlen, Nat.eqb_refl. cbn [negb].
  apply forallb_pos in Hpos. rewrite Hpos. cbn [negb].
  destruct (select_last0_shape samples batch m Hs Hm) as [x0 [Hx0 Hsh]].
  rewrite Hx0. unfold bind at 1. unfold lift at 1.
  unfold bind. unfold zeros_like. rewrite Hsh.
  rewrite (smoothed_loop_spec _ samples batch);
    [|apply (Forall_combine_fst (fun c => shaped batch (c samples))), Hcs
     |apply shaped_full].
  rewrite length_combine, Hlen, Nat.min_id. unfold ret. f_equal. f_equal.
  fold (kernel log_fatmoid fat).
  destruct log.
  - apply tabulate_ext. intros j Hj. rewrite full_eq_tabulate.
    rewrite nth_tabulate by exact Hj. unfold log_feasibility. lra.
  - rewrite tmap_tabulate. apply tabulate_ext. intros j Hj. rewrite full_eq_tabulate.
    rewrite nth_tabulate by exact Hj. unfold log_feasibility. f_equal. lra.
Qed.

End Smoothed.

Section Claims.

Variable log_fatmoid : R -> R.

Lemma single_indicators (samples : tensor R) (fat : bool) (batch : list nat) (m : nat)
    (ces : list (constraint * R)) :
  shape samples = batch ++ [m] -> (0 < m)%nat ->
  Forall (fun ce => shaped batch (fst ce samples) /\ 0 < snd ce) ces ->
  Forall2
    (fun ce s =>
       run (compute_smoothed_feasibility_indicator log_fatmoid [fst ce] samples
              (EtaTensor [snd ce]) false fat) = inr s)
    ces
    (map (fun ce => tabulate batch
                      (fun j => exp (log_term (kernel log_fatmoid fat) samples j ce)))
         ces).
Proof.
  intros Hs Hm Hces. induction Hces as [|[c e] rest [Hc He] _ IH]; cbn [map].
  - constructor.
  - constructor; [|exact IH]. cbn [fst snd] in *.
    unfold run.
    rewrite (smoothed_indicator_spec log_fatmoid _ samples _ false fat batch m []);
      try assumption.
    + cbn [fst]. f_equal. apply tabulate_ext. intros j _.
      unfold log_feasibility, Rsum. cbn [etas_of length combine map fold_right].
      rewrite Rplus_0_r. reflexivity.
    + split; [reflexivity | repeat constructor; exact He].
    + constructor; [exact Hc | constructor].
Qed.

Lemma Forall_combine {A B} (P : A -> Prop) (Q : B -> Prop) (la : list A) (lb : list B) :
  Forall P la -> Forall Q lb -> Forall (fun ab => P (fst ab) /\ Q (snd ab)) (combine la lb).
Proof.
  intros Ha. revert lb. induction Ha as [|a la Hpa _ IH]; intros lb Hb; cbn.
  - constructor.
  - destruct Hb as [|b lb Hqb Hb]; constructor; auto.
Qed.

(** C1: with k constraints of the data model (any k, so every non-empty
    list) and a strictly positive temperature per constraint, every entry
    of the non-log smoothed indicator is the product of the entries of the
    k single-constraint smoothed indicators taken with the same respective
    temperatures, and every entry of the log result is the sum, accumulated
    from zero, of the kernel at -constraint(samples)/eta_i over the
    constraints. *)
Theorem smoothed_indicator_multiplicative (cs : list constraint) (etas : list R)
    (samples : tensor R) (fat : bool) (batch : list nat) (m : nat) :
  length etas = length cs ->
  Forall (fun e => 0 < e) etas ->
  shape samples = batch ++ [m] -> (0 < m)%nat ->
  respects batch samples cs ->
  exists (w lw : tensor R) (singles : list (tensor R)),
    run (compute_smoothed_feasibility_indicator log_fatmoid cs samples
           (EtaTensor etas) false fat) = inr w
    /\ run (compute_smoothed_feasibility_indicator log_fatmoid cs samples
              (EtaTensor etas) true fat) = inr lw
    /\ Forall2
         (fun ce s =>
            run (compute_smoothed_feasibility_indicator log_fatmoid [fst ce] samples
                   (EtaTensor [snd ce]) false fat) = inr s)
         (combine cs etas) singles
    /\ shaped batch w /\ shaped batch lw
    /\ forall j, (j < numel batch)%nat ->
         nth j (data w) 0 = Rprod (map (fun s => nth j (data s) 0) singles)
         /\ nth j (data lw) 0
            = fold_left Rplus
                (map (fun ce => kernel log_fatmoid fat
                                  (- nth j (data (fst ce samples)) 0 / snd ce))
                     (combine cs etas))
                0.
Proof.
  intros Hlen Hpos Hs Hm Hcs.
  assert (Hv : valid_eta (length cs) (EtaTensor etas)) by (split; assumption).
  eexists _, _, _. unfold run.
  rewrite !(smoothed_indicator_spec log_fatmoid cs samples (EtaTensor etas) _ fat
              batch m [] Hv Hs Hm Hcs).
  cbn [fst etas_of].
  split; [reflexivity|]. split; [reflexivity|].
  split.
  { apply (single_indicators samples fat batch m _ Hs Hm).
    apply (Forall_combine (fun c => shaped batch (c samples)) (fun e => 0 < e));
      assumption. }
  split; [apply shaped_tabulate|]. split; [apply shaped_tabulate|].
  intros j Hj. rewrite !nth_tabulate by exact Hj. split.
  - unfold log_feasibility. rewrite exp_Rsum, !map_map. f_equal.
    apply map_ext. intros ce. rewrite nth_tabulate by exact Hj. reflexivity.
  - rewrite fold_left_Rplus, Rplus_0_l. reflexivity.
Qed.

(** C2: a temperature tensor whose length is not the number of
    constraints, or one that holds a value that is not strictly positive,
    makes the smoothed indicator raise a [ValueError] with the trace
    untouched, that is, before any constraint is invoked; a scalar
    temperature is replaced by one copy per constraint and then goes
    through the same checks. *)
Theorem smoothed_indicator_validation (cs : list constraint) (samples : tensor R)
    (log fat : bool) (tr : trace) :
  (forall es, length es <> length cs ->
     compute_smoothed_feasibility_indicator log_fatmoid cs samples (EtaTensor es) log fat tr
     = (inl (ValueError count_mismatch_msg), tr))
  /\ (forall es, length es = length cs -> Exists (fun e => e <= 0) es ->
        compute_smoothed_feasibility_indicator log_fatmoid cs samples (EtaTensor es) log fat tr
        = (inl (ValueError positive_msg), tr))
  /\ (forall es, Exists (fun e => e <= 0) es ->
        exists msg,
          compute_smoothed_feasibility_indicator log_fatmoid cs samples (EtaTensor es)
            log fat tr
          = (inl (ValueError msg), tr))
  /\ (forall e,
        compute_smoothed_feasibility_indicator log_fatmoid cs samples (EtaFloat e) log fat
        = compute_smoothed_feasibility_indicator log_fatmoid cs samples
            (EtaTensor (repeat e (length cs))) log fat)
  /\ (forall e, e <= 0 -> cs <> [] ->
        compute_smoothed_feasibility_indicator log_fatmoid cs samples (EtaFloat e) log fat tr
        = (inl (ValueError positive_msg), tr)).
Proof.
  assert (Hcount : forall es, length es <> length cs ->
     compute_smoothed_feasibility_indicator log_fatmoid cs samples (EtaTensor es) log fat tr
     = (inl (ValueError count_mismatch_msg), tr)).
  { intros es Hne. unfold compute_smoothed_feasibility_indicator.
    destruct (Nat.eqb_spec (length es) (length cs)) as [Heq|_]; [contradiction|].
    reflexivity. }
  assert (Hposv : forall es, length es = length cs -> Exists (fun e => e <= 0) es ->
     compute_smoothed_feasibility_indicator log_fatmoid cs samples (EtaTensor es) log fat tr
     = (inl (ValueError positive_msg), tr)).
  { intros es Heq Hex. unfold compute_smoothed_feasibility_indicator.
    rewrite Heq, Nat.eqb_refl. cbn [negb].
    destruct (forallb (fun e => Rltb 0 e) es) eqn:Hall; [|reflexivity].
    apply forallb_pos in Hall. apply Exists_exists in Hex as [e [Hin He]].
    rewrite Forall_forall in Hall. specialize (Hall e Hin). lra. }
  split; [exact Hcount|]. split; [exact Hposv|]. split; [|split].
  - intros es Hex. destruct (Nat.eq_dec (length es) (length cs)) as [Heq|Hne].
    + eexists. apply Hposv; assumption.
    + eexists. apply Hcount; assumption.
  - reflexivity.
  - intros e He Hcs.
    change (compute_smoothed_feasibility_indicator log_fatmoid cs samples (EtaFloat e) log fat tr)
      with (compute_smoothed_feasibility_indicator log_fatmoid cs samples
              (EtaTensor (repeat e (length cs))) log fat tr).
    apply Hposv; [apply repeat_length|].
    destruct cs as [|c rest]; [contradiction|]. cbn. apply Exists_cons_hd, He.
Qed.

(** Whatever the callables return, the accumulator of the loop never
    holds a positive value when the kernel never returns one. *)
Lemma smoothed_loop_nonpos (ls : R -> R) (samples : tensor R)
    (ces : list (constraint * R)) :
  (forall x, ls x <= 0) ->
  forall (i : nat) (acc : tensor R) (tr : trace) (r : tensor R) (tr' : trace),
    Forall (fun x => x <= 0) (data acc) ->
    smoothed_loop ls samples i ces acc tr = (inr r, tr') ->
    Forall (fun x => x <= 0) (data r).
Proof.
  intros Hls. induction ces as [|[c e] rest IH]; intros i acc tr r tr' Hacc Hrun.
  - cbn in Hrun. unfold ret in Hrun. congruence.
  - cbn [smoothed_loop] in Hrun. unfold bind at 1 in Hrun.
    unfold invoke, bind, tell, ret in Hrun. unfold lift at 1 in Hrun.
    destruct (tadd acc (tmap ls (tmap (fun x => x / e) (tmap Ropp (c samples)))))
      as [err|acc1] eqn:Hadd; [discriminate|].
    refine (IH _ acc1 _ r tr' _ Hrun).
    apply (map2b_Forall (fun x => x <= 0) (fun x => x <= 0) (fun x => x <= 0)
             0 0 Rplus acc (tmap ls (tmap (fun x => x / e) (tmap Ropp (c samples))))
             acc1); try assumption; try lra.
    + intros x y Hx Hy. lra.
    + cbn [tmap data]. rewrite Forall_forall. intros x Hx.
      apply in_map_iff in Hx as [y [<- _]]. apply Hls.
Qed.

(** C3: every element the non-log smoothed indicator returns lies in
    [0,1] and every element the log variant returns is at most 0, for all
    constraint callables, sample batches and temperatures; on inputs of the
    data model with strictly positive temperatures both variants do return.
    With the fat-tailed option the fat kernel has to be, like logexpit, the
    logarithm of a value of (0,1]. *)
Theorem smoothed_indicator_bounds (cs : list constraint) (samples : tensor R)
    (eta : eta_arg) (fat : bool) :
  (fat = true -> forall x, log_fatmoid x <= 0) ->
  (forall tr w tr',
      compute_smoothed_feasibility_indicator log_fatmoid cs samples eta false fat tr
      = (inr w, tr') ->
      Forall (fun x => 0 <= x <= 1) (data w))
  /\ (forall tr lw tr',
        compute_smoothed_feasibility_indicator log_fatmoid cs samples eta true fat tr
        = (inr lw, tr') ->
        Forall (fun x => x <= 0) (data lw))
  /\ (forall batch m,
        valid_eta (length cs) eta ->
        shape samples = batch ++ [m] -> (0 < m)%nat ->
        respects batch samples cs ->
        exists w lw : tensor R,
          run (compute_smoothed_feasibility_indicator log_fatmoid cs samples eta
                 false fat) = inr w
          /\ run (compute_smoothed_feasibility_indicator log_fatmoid cs samples eta
                    true fat) = inr lw).
Proof.
  intros Hfat.
  assert (Hk : forall x, (if fat then log_fatmoid else logexpit) x <= 0).
  { intros x. destruct fat; [apply Hfat; reflexivity|].
    left. apply logexpit_neg. }
  assert (Hacc : forall (log : bool) tr r tr',
             compute_smoothed_feasibility_indicator log_fatmoid cs samples eta log fat tr
             = (inr r, tr') ->
             exists acc, Forall (fun x => x <= 0) (data acc)
                         /\ r = if log then acc else tmap exp acc).
  { intros log tr r tr' Hrun.
    unfold compute_smoothed_feasibility_indicator in Hrun.
    destruct (negb (length _ =? length cs)%nat); [discriminate|].
    destruct (negb (forallb _ _)); [discriminate|].
    unfold bind at 1 in Hrun. unfold lift at 1 in Hrun.
    destruct (select_last0 samples) as [err|x0]; [discriminate|].
    unfold bind in Hrun.
    destruct (smoothed_loop _ samples 0 _ (zeros_like x0) tr) as [[err|acc] tr1] eqn:Hloop;
      [discriminate|].
    unfold ret in Hrun. exists acc. split; [|congruence].
    apply (smoothed_loop_nonpos _ samples _ Hk _ _ _ _ _) in Hloop; [exact Hloop|].
    unfold zeros_like, full. cbn [data]. apply Forall_forall.
    intros x Hx. apply repeat_spec in Hx. lra. }
  split; [|split].
  - intros tr w tr' Hrun. destruct (Hacc false tr w tr' Hrun) as (acc & Hle & ->).
    cbn [tmap data]. rewrite Forall_forall in *. intros x Hx.
    apply in_map_iff in Hx as [y [<- Hy]]. apply exp_nonpos_le_1, Hle, Hy.
  - intros tr lw tr' Hrun. destruct (Hacc true tr lw tr' Hrun) as (acc & Hle & ->).
    exact Hle.
  - intros batch m Hv Hs Hm Hcs. eexists _, _. unfold run.
    rewrite !(smoothed_indicator_spec log_fatmoid cs samples eta _ fat batch m []
                Hv Hs Hm Hcs).
    split; reflexivity.
Qed.

(** C10: with an empty constraint list and a scalar temperature (of any
    sign) the smoothed indicator raises nothing on a sample batch with a
    non-empty outcome axis: it returns the zeros of the batch shape when
    [log] is set and the ones otherwise, where the hard indicator returns
    the all-true array of the same shape. *)
Theorem smoothed_indicator_no_constraints (samples : tensor R) (e : R) (fat : bool)
    (batch : list nat) (m : nat) (tr : trace) :
  shape samples = batch ++ [m] -> (0 < m)%nat ->
  compute_smoothed_feasibility_indicator log_fatmoid [] samples (EtaFloat e) true fat tr
  = (inr (full batch 0), tr)
  /\ compute_smoothed_feasibility_indicator log_fatmoid [] samples (EtaFloat e) false fat tr
     = (inr (full batch 1), tr)
  /\ compute_feasibility_indicator (Some []) samples tr = (inr (full batch true), tr).
Proof.
  intros Hs Hm.
  assert (Hv : valid_eta (length (@nil constraint)) (EtaFloat e))
    by (split; [reflexivity | constructor]).
  assert (Hcs : respects batch samples []) by constructor.
  rewrite !(smoothed_indicator_spec log_fatmoid [] samples (EtaFloat e) _ fat batch m tr
              Hv Hs Hm Hcs).
  cbn [length seq map]. rewrite app_nil_r, !full_eq_tabulate.
  split; [|split].
  - reflexivity.
  - rewrite (tabulate_ext batch _ (fun _ => 1)); [reflexivity|].
    intros j _. cbn. apply exp_0.
  - unfold compute_feasibility_indicator. cbn [feasibility_loop]. unfold ret.
    rewrite Hs, removelast_last, full_eq_tabulate. reflexivity.
Qed.

(** C8: on constraints of the data model the hard indicator is, entry by
    entry of the batch shape (the sample shape without its outcome axis),
    the conjunction over the list of [constraint(samples) < 0]; the trace
    gains one invocation per callable, in list order; an empty or absent
    list gives the all-true array. *)
Theorem feasibility_indicator_conjunction (cs : list constraint) (samples : tensor R)
    (tr : trace) :
  respects (removelast (shape samples)) samples cs ->
  compute_feasibility_indicator (Some cs) samples tr
  = (inr (tabulate (removelast (shape samples))
            (fun j => forallb (fun c => Rltb (nth j (data (c samples)) 0) 0) cs)),
     tr ++ map Invoked (seq 0 (length cs)))
  /\ compute_feasibility_indicator (Some []) samples tr
     = (inr (full (removelast (shape samples)) true), tr)
  /\ compute_feasibility_indicator None samples tr
     = (inr (full (removelast (shape samples)) true), tr).
Proof.
  intros Hcs. unfold compute_feasibility_indicator. split; [|split; reflexivity].
  rewrite (feasibility_loop_spec samples (removelast (shape samples)) cs 0 _ tr Hcs)
    by apply shaped_full.
  rewrite (tabulate_ext _ _
             (fun j => forallb (fun c => Rltb (nth j (data (c samples)) 0) 0) cs));
    [reflexivity|].
  intros j Hj. rewrite full_eq_tabulate, nth_tabulate by exact Hj. reflexivity.
Qed.

(** C7: the transform built from a weight vector [w] of length m maps a
    [Y] of shape [batch x m] to the array of shape [batch] whose entry i
    is the sum over the outcome axis of [Y[i, j] * w[j]], whatever the
    number of leading axes ([0.75, 0.25] against the values 2 and 4 gives
    2.5); the transform built without weights maps a [b x q x 1] array to
    the [b x q] array with the same elements. *)
Theorem objective_weights_transform_spec :
  (forall (w : list R) (Y : tensor R) (X : option (tensor R)) (batch : list nat),
      shape Y = batch ++ [length w] ->
      exists Z,
        get_objective_weights_transform (Some w) Y X = inr Z
        /\ shaped batch Z
        /\ forall i, (i < numel batch)%nat ->
             nth i (data Z) 0
             = Rsum (map (fun j => nth (i * length w + j) (data Y) 0 * nth j w 0)
                         (seq 0 (length w))))
  /\ get_objective_weights_transform (Some [0.75; 0.25])
       (mkTensor [1; 1; 2]%nat [2; 4]) None
     = inr (mkTensor [1; 1]%nat [2.5])
  /\ (forall (b q : nat) (elems : list R),
        get_objective_weights_transform None (mkTensor [b; q; 1]%nat elems) None
        = inr (mkTensor [b; q] elems)).
Proof.
  split; [|split].
  - intros w Y X batch HY.
    unfold get_objective_weights_transform, einsum_m.
    rewrite HY, rev_app_distr, removelast_last. cbn [rev app].
    rewrite Nat.eqb_refl. cbn [orb].
    eexists. split; [reflexivity|]. split; [apply shaped_tabulate|].
    intros i Hi. rewrite nth_tabulate by exact Hi.
    destruct (Nat.eqb_spec (length w) 1) as [H1|_]; [|reflexivity].
    rewrite H1. reflexivity.
  - unfold get_objective_weights_transform, einsum_m, tabulate, Rsum. cbn.
    do 2 f_equal. f_equal. lra.
  - intros b q elems. reflexivity.
Qed.

(** C5: [apply_constraints] on [obj] with infeasible cost [M] is the
    non-negative-domain application on [obj + M] followed by the
    subtraction of [M]: it fails when and as that application fails, and
    leaves the same trace. *)
Theorem apply_constraints_shift (obj : tensor R) (cs : list constraint)
    (samples : tensor R) (M0 : R) (eta : eta_arg) (tr : trace) :
  apply_constraints log_fatmoid obj cs samples M0 eta tr
  = match apply_constraints_nonnegative_soft log_fatmoid
            (tmap (fun x => x + M0) obj) cs samples eta tr with
    | (inr r, tr') => (inr (tmap (fun x => x - M0) r), tr')
    | (inl err, tr') => (inl err, tr')
    end.
Proof.
  unfold apply_constraints, bind at 1.
  destruct (apply_constraints_nonnegative_soft log_fatmoid _ cs samples eta tr)
    as [[err|r] tr']; reflexivity.
Qed.

(** The non-negative-domain application on inputs of the data model, for
    an objective with and without a trailing per-outcome axis. *)
Lemma nonnegative_soft_value (obj : tensor R) (cs : list constraint)
    (samples : tensor R) (eta : eta_arg) (batch : list nat) (m : nat) (tr : trace) :
  valid_eta (length cs) eta ->
  shape samples = batch ++ [m] -> (0 < m)%nat ->
  respects batch samples cs ->
  let ces := combine cs (etas_of (length cs) eta) in
  let tr' := tr ++ map Invoked (seq 0 (length cs)) in
  (forall m', shaped (batch ++ [m']) obj ->
     apply_constraints_nonnegative_soft log_fatmoid obj cs samples eta tr
     = (inr (tabulate (batch ++ [m'])
               (fun i => Rmax (nth i (data obj) 0) 0 * weight samples ces (i / m'))),
        tr'))
  /\ (shaped batch obj ->
      apply_constraints_nonnegative_soft log_fatmoid obj cs samples eta tr
      = (inr (tabulate batch
                (fun i => Rmax (nth i (data obj) 0) 0 * weight samples ces i)),
         tr')).
Proof.
  intros Hv Hs Hm Hcs ces tr'.
  unfold apply_constraints_nonnegative_soft, bind.
  rewrite (smoothed_indicator_spec log_fatmoid cs samples eta false false batch m tr
             Hv Hs Hm Hcs).
  fold ces tr'. unfold kernel. fold (weight samples ces). unfold dim. rewrite Hs.
  split.
  - intros m' Hobj. destruct Hobj as [Hsh Hlen]. rewrite Hsh, !length_app.
    cbn [length]. rewrite Nat.eqb_refl. unfold lift, tmul.
    rewrite (map2b_trailing 0 0 Rmult batch m') by (cbn; (exact Hsh || reflexivity)).
    rewrite (tabulate_ext _ _
               (fun i => Rmax (nth i (data obj) 0) 0 * weight samples ces (i / m')));
      [reflexivity|].
    intros i Hi.
    rewrite (nth_tmap _ (batch ++ [m']) obj i 0 0); [|split; assumption|exact Hi].
    cbn [unsqueeze_last data tabulate]. f_equal.
    apply nth_map_seq. rewrite numel_app in Hi.
    apply Nat.Div0.div_lt_upper_bound. cbn in Hi. lia.
  - intros [Hsh Hlen]. rewrite Hsh, length_app. cbn [length].
    destruct (Nat.eqb_spec (length batch) (length batch + 1)) as [Habs|_]; [lia|].
    unfold lift, tmul.
    rewrite (map2b_same 0 0 Rmult batch) by (cbn; (exact Hsh || reflexivity)).
    rewrite (tabulate_ext _ _
               (fun i => Rmax (nth i (data obj) 0) 0 * weight samples ces i));
      [reflexivity|].
    intros i Hi.
    rewrite (nth_tmap _ batch obj i 0 0); [|split; assumption|exact Hi].
    rewrite nth_tabulate by exact Hi. reflexivity.
Qed.

(** C4 (amended): the non-negative-domain application multiplies the
    objective clamped below at zero by the weight that the smoothed
    indicator returns with [log] and [fat] off.  The trailing singleton
    axis is inserted into the weight when the objective has as many axes as
    the sample batch, that is, one more than the weight: for an objective
    of shape [batch x m'] entry i of the result is
    [max(obj[i], 0) * w[i / m']], for an objective of shape [batch] it is
    [max(obj[i], 0) * w[i]], and in both cases the result has the shape of
    the objective. *)
Theorem nonnegative_soft_product (obj : tensor R) (cs : list constraint)
    (samples : tensor R) (eta : eta_arg) (batch : list nat) (m : nat) (tr : trace) :
  valid_eta (length cs) eta ->
  shape samples = batch ++ [m] -> (0 < m)%nat ->
  respects batch samples cs ->
  exists (w : tensor R) (tr' : trace),
    compute_smoothed_feasibility_indicator log_fatmoid cs samples eta false false tr
    = (inr w, tr')
    /\ (forall m', shaped (batch ++ [m']) obj ->
          dim obj = dim samples
          /\ exists r,
               apply_constraints_nonnegative_soft log_fatmoid obj cs samples eta tr
               = (inr r, tr')
               /\ tmul (tmap (fun x => Rmax x 0) obj) (unsqueeze_last w) = inr r
               /\ shape r = shape obj
               /\ forall i, (i < numel (shape obj))%nat ->
                    nth i (data r) 0
                    = Rmax (nth i (data obj) 0) 0 * nth (i / m') (data w) 0)
    /\ (shaped batch obj ->
          S (dim obj) = dim samples
          /\ exists r,
               apply_constraints_nonnegative_soft log_fatmoid obj cs samples eta tr
               = (inr r, tr')
               /\ tmul (tmap (fun x => Rmax x 0) obj) w = inr r
               /\ shape r = shape obj
               /\ forall i, (i < numel (shape obj))%nat ->
                    nth i (data r) 0 = Rmax (nth i (data obj) 0) 0 * nth i (data w) 0).
Proof.
  intros Hv Hs Hm Hcs.
  pose (ces := combine cs (etas_of (length cs) eta)).
  exists (tabulate batch (weight samples ces)), (tr ++ map Invoked (seq 0 (length cs))).
  pose proof (smoothed_indicator_spec log_fatmoid cs samples eta false false batch m tr
                Hv Hs Hm Hcs) as Hw.
  cbn zeta in Hw. unfold kernel in Hw. fold ces in Hw. fold (weight samples ces) in Hw.
  split; [exact Hw|].
  destruct (nonnegative_soft_value obj cs samples eta batch m tr Hv Hs Hm Hcs)
    as [Hwide Hflat].
  fold ces in Hwide, Hflat.
  split.
  - intros m' Hobj. specialize (Hwide m' Hobj). destruct Hobj as [Hsh Hlen].
    assert (Hdim : dim obj = dim samples).
    { unfold dim. rewrite Hsh, Hs, !length_app. reflexivity. }
    split; [exact Hdim|]. eexists. split; [exact Hwide|].
    split; [|split; [symmetry; exact Hsh|]].
    + unfold apply_constraints_nonnegative_soft, bind in Hwide.
      rewrite Hw, Hdim, Nat.eqb_refl in Hwide. unfold lift in Hwide.
      congruence.
    + intros i Hi. rewrite Hsh in Hi. rewrite nth_tabulate by exact Hi.
      f_equal. symmetry. apply nth_tabulate.
      rewrite numel_app in Hi. apply Nat.Div0.div_lt_upper_bound. cbn in Hi. lia.
  - intros Hobj. specialize (Hflat Hobj). destruct Hobj as [Hsh Hlen].
    assert (Hdim : S (dim obj) = dim samples).
    { unfold dim. rewrite Hsh, Hs, length_app. cbn. lia. }
    split; [exact Hdim|]. eexists. split; [exact Hflat|].
    split; [|split; [symmetry; exact Hsh|]].
    + unfold apply_constraints_nonnegative_soft, bind in Hflat.
      rewrite Hw in Hflat.
      destruct (Nat.eqb_spec (dim obj) (dim samples)) as [Habs|_]; [lia|].
      unfold lift in Hflat. congruence.
    + intros i Hi. rewrite Hsh in Hi. rewrite !nth_tabulate by exact Hi.
      reflexivity.
Qed.

Lemma tmap_eq_tabulate {A B} (f : A -> B) (d : A) (s : list nat) (t : tensor A) :
  shaped s t -> tmap f t = tabulate s (fun i => f (nth i (data t) d)).
Proof.
  intros Ht.
  transitivity (tmap f (tabulate s (fun i => nth i (data t) d))).
  - f_equal. apply shaped_eq_tabulate, Ht.
  - apply tmap_tabulate.
Qed.

(** The weight of a callable that always returns -1. *)
Lemma always_feasible_weight (samples : tensor R) (batch : list nat) (m : nat)
    (e : R) (j : nat) :
  shape samples = batch ++ [m] -> 0 < e -> (j < numel batch)%nat ->
  weight samples [(always_feasible, e)] j = sigmoid (1 / e).
Proof.
  intros Hs He Hj.
  unfold weight, log_feasibility, Rsum, log_term, always_feasible.
  cbn [map fold_right fst snd].
  rewrite Hs, removelast_last, full_eq_tabulate, nth_tabulate by exact Hj.
  rewrite Rplus_0_r, exp_logexpit. f_equal. field. lra.
Qed.

Lemma apply_constraints_feasible_value (obj samples : tensor R) (M0 : R)
    (eta : eta_arg) (e : R) (batch : list nat) (m : nat) (tr : trace) :
  etas_of 1 eta = [e] -> 0 < e ->
  shape samples = batch ++ [m] -> (0 < m)%nat ->
  shaped batch obj \/ (exists m', shaped (batch ++ [m']) obj) ->
  apply_constraints log_fatmoid obj [always_feasible] samples M0 eta tr
  = (inr (tabulate (shape obj)
            (fun i => Rmax (nth i (data obj) 0 + M0) 0 * sigmoid (1 / e) + - M0)),
     tr ++ [Invoked 0%nat]).
Proof.
  intros Heta He Hs Hm Hobj.
  assert (Hv : valid_eta (length [always_feasible]) eta).
  { cbn [length]. unfold valid_eta. rewrite Heta. split; [reflexivity|].
    constructor; [exact He | constructor]. }
  assert (Hcs : respects batch samples [always_feasible]).
  { constructor; [|constructor]. unfold always_feasible.
    rewrite Hs, removelast_last. apply shaped_full. }
  destruct (nonnegative_soft_value (tmap (fun x => x + M0) obj) [always_feasible]
              samples eta batch m tr Hv Hs Hm Hcs) as [Hwide Hflat].
  cbn [length combine seq map] in Hwide, Hflat. rewrite Heta in Hwide, Hflat.
  cbn [combine] in Hwide, Hflat.
  unfold apply_constraints, bind.
  destruct Hobj as [Hobj | [m' Hobj]].
  - rewrite (Hflat (shaped_tmap _ _ _ Hobj)). unfold ret.
    rewrite tmap_tabulate. destruct Hobj as [Hsh Hlen]. rewrite Hsh.
    rewrite (tabulate_ext batch _
               (fun i => Rmax (nth i (data obj) 0 + M0) 0 * sigmoid (1 / e) + - M0));
      [reflexivity|].
    intros i Hi.
    rewrite (nth_tmap _ batch obj i 0 0); [|split; assumption|exact Hi].
    rewrite (always_feasible_weight samples batch m e i Hs He Hi). reflexivity.
  - rewrite (Hwide m' (shaped_tmap _ _ _ Hobj)). unfold ret.
    rewrite tmap_tabulate. destruct Hobj as [Hsh Hlen]. rewrite Hsh.
    rewrite (tabulate_ext (batch ++ [m']) _
               (fun i => Rmax (nth i (data obj) 0 + M0) 0 * sigmoid (1 / e) + - M0));
      [reflexivity|].
    intros i Hi.
    rewrite (nth_tmap _ (batch ++ [m']) obj i 0 0); [|split; assumption|exact Hi].
    rewrite (always_feasible_weight samples batch m e (i / m') Hs He); [reflexivity|].
    rewrite numel_app in Hi. apply Nat.Div0.div_lt_upper_bound. cbn in Hi. lia.
Qed.

(** C6 (amended): with the single callable that always returns -1, an
    objective with [obj + M >= 0] everywhere and a strictly positive
    temperature [e], [apply_constraints] returns, entry by entry,
    [obj - (obj + M) * (1 - sigmoid(1/e))]: the weight is [sigmoid(1/e)],
    below 1 for every temperature, and the result lies below the original
    objective by at most [(obj + M) * exp(-1/e)], a gap that vanishes as
    the temperature goes to zero and not for every temperature. *)
Theorem apply_constraints_feasible (obj samples : tensor R) (M0 : R)
    (eta : eta_arg) (e : R) (batch : list nat) (m : nat) :
  etas_of 1 eta = [e] -> 0 < e ->
  shape samples = batch ++ [m] -> (0 < m)%nat ->
  shaped batch obj \/ (exists m', shaped (batch ++ [m']) obj) ->
  Forall (fun x => 0 <= x + M0) (data obj) ->
  exists r,
    run (apply_constraints log_fatmoid obj [always_feasible] samples M0 eta) = inr r
    /\ shaped (shape obj) r
    /\ forall i, (i < numel (shape obj))%nat ->
         let x := nth i (data obj) 0 in
         let y := nth i (data r) 0 in
         y = x - (x + M0) * (1 - sigmoid (1 / e))
         /\ 0 <= x - y <= (x + M0) * exp (- (1 / e)).
Proof.
  intros Heta He Hs Hm Hobj Hnn. unfold run.
  rewrite (apply_constraints_feasible_value obj samples M0 eta e batch m []
             Heta He Hs Hm Hobj).
  cbn [fst]. eexists. split; [reflexivity|]. split; [apply shaped_tabulate|].
  intros i Hi. cbn zeta. rewrite nth_tabulate by exact Hi.
  set (x := nth i (data obj) 0).
  assert (Hx : 0 <= x + M0).
  { assert (Hlen : length (data obj) = numel (shape obj)).
    { destruct Hobj as [[Hsh Hl] | [m' [Hsh Hl]]]; rewrite Hsh; exact Hl. }
    rewrite Forall_forall in Hnn. apply Hnn. apply nth_In. lia. }
  rewrite Rmax_left by exact Hx.
  pose proof (sigmoid_compl_le_exp (1 / e)) as Hc.
  pose proof (sigmoid_lt_1 (1 / e)) as H1.
  split; [ring|]. split; nra.
Qed.

Lemma soft_eval_constraint_value (lhs : tensor R) (eta : R) (tr : trace) :
  0 < eta ->
  soft_eval_constraint lhs eta tr
  = (inr (tmap (fun x => sigmoid (- x / eta)) lhs), tr ++ [Warned deprecation]).
Proof.
  intros He. unfold soft_eval_constraint, bind, tell.
  unfold Rleb. destruct (Rle_dec eta 0) as [Hle|_]; [lra|].
  unfold ret, tmap. cbn [shape data]. rewrite !map_map. reflexivity.
Qed.

Lemma single_indicator_value (lhs samples : tensor R) (eta : R) (batch : list nat)
    (m : nat) :
  0 < eta -> shape samples = batch ++ [m] -> (0 < m)%nat -> shaped batch lhs ->
  run (compute_smoothed_feasibility_indicator log_fatmoid [fun _ => lhs] samples
         (EtaFloat eta) false false)
  = inr (tmap (fun x => sigmoid (- x / eta)) lhs).
Proof.
  intros He Hs Hm Hl. unfold run.
  rewrite (smoothed_indicator_spec log_fatmoid _ samples _ false false batch m []);
    try assumption.
  - cbn [fst]. rewrite (tmap_eq_tabulate _ 0 batch lhs Hl). f_equal.
    apply tabulate_ext. intros j _.
    unfold log_feasibility, Rsum, log_term, kernel.
    cbn [length etas_of repeat combine map fold_right fst snd].
    rewrite Rplus_0_r. apply exp_logexpit.
  - split; [reflexivity | repeat constructor; exact He].
  - constructor; [exact Hl | constructor].
Qed.

(** C9 (amended): [soft_eval_constraint] warns, raises a [ValueError] for
    a temperature that is not strictly positive, and otherwise returns
    [sigmoid(-lhs / eta)] entry by entry; this is the single-constraint
    smoothed indicator itself (constraint [c(x) = lhs], same temperature,
    [fat] and [log] off), and the complement to 1 of the indicator of the
    constraint of opposite sign, [c(x) = -lhs]. *)
Theorem soft_eval_constraint_spec (lhs : tensor R) (eta : R) (tr : trace) :
  (eta <= 0 ->
   soft_eval_constraint lhs eta tr
   = (inl (ValueError positive_msg), tr ++ [Warned deprecation]))
  /\ (0 < eta ->
      soft_eval_constraint lhs eta tr
      = (inr (tmap (fun x => sigmoid (- x / eta)) lhs), tr ++ [Warned deprecation])
      /\ forall (samples : tensor R) (batch : list nat) (m : nat),
           shape samples = batch ++ [m] -> (0 < m)%nat -> shaped batch lhs ->
           run (compute_smoothed_feasibility_indicator log_fatmoid [fun _ => lhs]
                  samples (EtaFloat eta) false false)
           = run (soft_eval_constraint lhs eta)
           /\ exists s w,
                run (soft_eval_constraint lhs eta) = inr s
                /\ run (compute_smoothed_feasibility_indicator log_fatmoid
                          [fun _ => tmap Ropp lhs] samples (EtaFloat eta) false false)
                   = inr w
                /\ forall i, (i < numel batch)%nat ->
                     nth i (data s) 0 = 1 - nth i (data w) 0).
Proof.
  split.
  - intros He. unfold soft_eval_constraint, bind, tell.
    unfold Rleb. destruct (Rle_dec eta 0) as [_|Hn]; [reflexivity | contradiction].
  - intros He. split; [apply soft_eval_constraint_value, He|].
    intros samples batch m Hs Hm Hl.
    rewrite (single_indicator_value lhs samples eta batch m He Hs Hm Hl).
    rewrite (single_indicator_value (tmap Ropp lhs) samples eta batch m He Hs Hm
               (shaped_tmap _ _ _ Hl)).
    unfold run. rewrite soft_eval_constraint_value by exact He. cbn [fst].
    split; [reflexivity|]. eexists _, _. split; [reflexivity|]. split; [reflexivity|].
    intros i Hi.
    rewrite (nth_tmap _ batch lhs i 0 0 Hl Hi).
    rewrite (nth_tmap _ batch (tmap Ropp lhs) i 0 0 (shaped_tmap _ _ _ Hl) Hi).
    rewrite (nth_tmap Ropp batch lhs i 0 0 Hl Hi).
    rewrite <- sigmoid_opp. f_equal. field. lra.
Qed.

End Claims.

Lemma ex_respects : respects [2%nat] ex_samples ex_constraints.
Proof.
  constructor; [split; reflexivity|].
  constructor; [split; reflexivity|]. constructor.
Qed.

Lemma ex_shape : shape ex_samples = [2%nat] ++ [2%nat].
Proof. reflexivity. Qed.

Lemma exp_1_gt_2 : 2 < exp 1.
Proof. pose proof (exp_ineq1 1). lra. Qed.

Lemma sigmoid_1_le : sigmoid (1 / 1) <= 3 / 4.
Proof.
  replace (1 / 1) with 1 by lra. unfold sigmoid.
  rewrite exp_Ropp. pose proof exp_le_3 as H3. pose proof (exp_pos 1) as Hp.
  assert (Hi : 1 / 3 <= / exp 1).
  { unfold Rdiv. rewrite Rmult_1_l. apply Rinv_le_contravar; lra. }
  apply (Rmult_le_reg_r (1 + / exp 1)); [lra|].
  unfold Rdiv. rewrite Rmult_assoc, Rinv_l by lra. lra.
Qed.

Lemma sigmoid_neg_1_lt : sigmoid (Ropp 1 / 1) < 1 / 3.
Proof.
  unfold sigmoid. replace (- (Ropp 1 / 1)) with 1 by lra.
  pose proof exp_1_gt_2 as H2.
  apply (Rmult_lt_reg_r (1 + exp 1)); [lra|].
  unfold Rdiv. rewrite Rmult_assoc, Rinv_l by lra. lra.
Qed.

(** C4, against the claim as stated: an objective with one more axis than
    the sample batch.  Multiplying by the weight with a trailing singleton
    axis inserted would give an array of the shape of the objective; the
    code inserts no axis and the multiplication raises a [RuntimeError]. *)
Lemma nonnegative_soft_extra_axis :
  shape (mkTensor [2; 2; 3]%nat (repeat 1 12)) = shape ex_samples ++ [3%nat]
  /\ exists w r,
       run (compute_smoothed_feasibility_indicator logexpit [] ex_samples
              (EtaFloat 1) false false) = inr w
       /\ tmul (tmap (fun x => Rmax x 0) (mkTensor [2; 2; 3]%nat (repeat 1 12)))
            (unsqueeze_last w) = inr r
       /\ shape r = [2; 2; 3]%nat
       /\ run (apply_constraints_nonnegative_soft logexpit
                 (mkTensor [2; 2; 3]%nat (repeat 1 12)) [] ex_samples (EtaFloat 1))
          = inl RuntimeError.
Proof.
  split; [reflexivity|].
  eexists _, _. split; [reflexivity|]. split; [reflexivity|].
  split; reflexivity.
Qed.

(** C6, against the claim as stated: one candidate point with the
    objective 1, the cost 0 and the temperature 1.  The shifted objective
    is non-negative and the constraint always returns -1, yet the result
    is [sigmoid(1)], more than 1/5 away from the objective. *)
Lemma apply_constraints_feasible_not_close :
  Forall (fun x => 0 <= x + 0) (data (mkTensor [1%nat] [1]))
  /\ exists r,
       run (apply_constraints logexpit (mkTensor [1%nat] [1]) [always_feasible]
              (mkTensor [1; 1]%nat [0]) 0 (EtaFloat 1)) = inr r
       /\ 1 / 5 < Rabs (nth 0 (data r) 0 - nth 0 (data (mkTensor [1%nat] [1])) 0).
Proof.
  split; [repeat constructor; lra|].
  unfold run.
  rewrite (apply_constraints_feasible_value logexpit (mkTensor [1%nat] [1])
             (mkTensor [1; 1]%nat [0]) 0 (EtaFloat 1) 1 [1%nat] 1 []);
    [|reflexivity|lra|reflexivity|lia|left; split; reflexivity].
  cbn [fst]. eexists. split; [reflexivity|].
  cbn [shape data tabulate numel fold_right Nat.mul Nat.add seq map nth].
  rewrite Rmax_left by lra.
  pose proof sigmoid_1_le as Hs. pose proof (sigmoid_pos (1 / 1)) as Hp.
  rewrite Rabs_left by lra. lra.
Qed.

(** C9, against the claim as stated: one candidate point with the
    left-hand side 1 and the temperature 1.  [soft_eval_constraint] and the
    single-constraint smoothed indicator both return [sigmoid(-1)], which
    is more than 1/4 away from the complement to 1 of the indicator. *)
Lemma soft_eval_constraint_not_complement :
  exists s w,
    run (soft_eval_constraint (mkTensor [1%nat] [1]) 1) = inr s
    /\ run (compute_smoothed_feasibility_indicator logexpit
              [fun _ => mkTensor [1%nat] [1]] (mkTensor [1; 1]%nat [0]) (EtaFloat 1)
              false false) = inr w
    /\ nth 0 (data s) 0 = nth 0 (data w) 0
    /\ 1 / 4 < Rabs (nth 0 (data s) 0 - (1 - nth 0 (data w) 0)).
Proof.
  eexists _, _. split.
  { unfold run. rewrite soft_eval_constraint_value by lra. reflexivity. }
  split.
  { apply (single_indicator_value logexpit (mkTensor [1%nat] [1])
             (mkTensor [1; 1]%nat [0]) 1 [1%nat] 1);
      [lra | reflexivity | lia | split; reflexivity]. }
  cbn [tmap shape data map nth]. split; [reflexivity|].
  pose proof sigmoid_neg_1_lt as Hs. pose proof (sigmoid_pos (Ropp 1 / 1)) as Hp.
  rewrite Rabs_left by lra. lra.
Qed.

(** ** The theorems at concrete inputs *)

(** The first point has a positive first outcome, the second a negative
    one: only the second is feasible for both callables. *)
Example feasibility_indicator_example :
  run (compute_feasibility_indicator (Some ex_constraints) ex_samples)
  = inr (mkTensor [2%nat] [false; true]).
Proof.
  unfold run, compute_feasibility_indicator.
  rewrite (feasibility_loop_spec ex_samples [2%nat] ex_constraints 0 _ [] ex_respects)
    by (split; reflexivity).
  cbn. unfold tabulate, Rltb. cbn.
  repeat (destruct (Rlt_dec _ _); try lra). reflexivity.
Qed.

Lemma smoothed_indicator_multiplicative_witness :
  exists w singles,
    run (compute_smoothed_feasibility_indicator logexpit ex_constraints ex_samples
           (EtaTensor [1; 2]) false false) = inr w
    /\ length singles = 2%nat
    /\ nth 1 (data w) 0 = Rprod (map (fun s => nth 1 (data s) 0) singles).
Proof.
  destruct (smoothed_indicator_multiplicative logexpit ex_constraints [1; 2]
              ex_samples false [2%nat] 2)
    as (w & lw & singles & Hw & _ & Hsingles & _ & _ & Hj).
  - reflexivity.
  - repeat constructor; lra.
  - exact ex_shape.
  - lia.
  - exact ex_respects.
  - exists w, singles. split; [exact Hw|]. split.
    + apply Forall2_length in Hsingles. symmetry. exact Hsingles.
    + apply (Hj 1%nat). cbn. lia.
Defined.

Lemma smoothed_indicator_validation_witness :
  compute_smoothed_feasibility_indicator logexpit ex_constraints ex_samples
    (EtaTensor [1; 1; 1]) false false []
  = (inl (ValueError count_mismatch_msg), [])
  /\ compute_smoothed_feasibility_indicator logexpit ex_constraints ex_samples
       (EtaTensor [1; 0]) false false []
     = (inl (ValueError positive_msg), [])
  /\ compute_smoothed_feasibility_indicator logexpit ex_constraints ex_samples
       (EtaFloat (-1)) false false []
     = (inl (ValueError positive_msg), []).
Proof.
  destruct (smoothed_indicator_validation logexpit ex_constraints ex_samples
              false false [])
    as (Hcount & Hpos & _ & _ & Hfloat).
  split; [|split].
  - apply Hcount. cbn. lia.
  - apply Hpos; [reflexivity|]. apply Exists_cons_tl, Exists_cons_hd. lra.
  - apply Hfloat; [lra | discriminate].
Defined.

Lemma smoothed_indicator_bounds_witness :
  exists w lw,
    compute_smoothed_feasibility_indicator logexpit ex_constraints ex_samples
      (EtaFloat (1 / 2)) false true []
    = (inr w, [Invoked 0%nat; Invoked 1%nat])
    /\ compute_smoothed_feasibility_indicator logexpit ex_constraints ex_samples
         (EtaFloat (1 / 2)) true true []
       = (inr lw, [Invoked 0%nat; Invoked 1%nat])
    /\ Forall (fun x => 0 <= x <= 1) (data w)
    /\ Forall (fun x => x <= 0) (data lw).
Proof.
  destruct (smoothed_indicator_bounds logexpit ex_constraints ex_samples
              (EtaFloat (1 / 2)) true (fun _ x => or_introl (logexpit_neg x)))
    as (Hw & Hlw & _).
  assert (Hv : valid_eta (length ex_constraints) (EtaFloat (1 / 2))).
  { split; [reflexivity|]. cbn. repeat constructor; lra. }
  pose proof (smoothed_indicator_spec logexpit ex_constraints ex_samples
                (EtaFloat (1 / 2)) false true [2%nat] 2 [] Hv ex_shape
                (Nat.lt_0_succ 1) ex_respects) as Hrw.
  pose proof (smoothed_indicator_spec logexpit ex_constraints ex_samples
                (EtaFloat (1 / 2)) true true [2%nat] 2 [] Hv ex_shape
                (Nat.lt_0_succ 1) ex_respects) as Hrl.
  eexists _, _. split; [exact Hrw|]. split; [exact Hrl|].
  split; [exact (Hw _ _ _ Hrw) | exact (Hlw _ _ _ Hrl)].
Defined.

Lemma nonnegative_soft_product_witness :
  exists r tr',
    apply_constraints_nonnegative_soft logexpit ex_obj ex_constraints ex_samples
      (EtaFloat (1 / 2)) [] = (inr r, tr')
    /\ shape r = shape ex_obj.
Proof.
  destruct (nonnegative_soft_product logexpit ex_obj ex_constraints ex_samples
              (EtaFloat (1 / 2)) [2%nat] 2 [])
    as (w & tr' & _ & Hwide & _).
  - split; [reflexivity|]. cbn. repeat constructor; lra.
  - exact ex_shape.
  - lia.
  - exact ex_respects.
  - destruct (Hwide 3%nat) as (_ & r & Hr & _ & Hsh & _); [split; reflexivity|].
    exists r, tr'. split; [exact Hr | exact Hsh].
Defined.

Lemma apply_constraints_feasible_witness :
  exists r,
    run (apply_constraints logexpit ex_obj [always_feasible] ex_samples 2
           (EtaFloat (1 / 1000))) = inr r
    /\ 0 <= nth 0 (data ex_obj) 0 - nth 0 (data r) 0
       <= (nth 0 (data ex_obj) 0 + 2) * exp (- (1 / (1 / 1000))).
Proof.
  destruct (apply_constraints_feasible logexpit ex_obj ex_samples 2
              (EtaFloat (1 / 1000)) (1 / 1000) [2%nat] 2)
    as (r & Hr & _ & Hi).
  - reflexivity.
  - lra.
  - exact ex_shape.
  - lia.
  - right. exists 3%nat. split; reflexivity.
  - cbn. repeat constructor; lra.
  - exists r. split; [exact Hr|]. apply (Hi 0%nat). cbn. lia.
Defined.

Lemma objective_weights_transform_witness :
  exists Z,
    get_objective_weights_transform (Some [0.75; 0.25]) ex_samples None = inr Z
    /\ shaped [2%nat] Z.
Proof.
  destruct (proj1 objective_weights_transform_spec [0.75; 0.25] ex_samples None
              [2%nat] eq_refl)
    as (Z & HZ & Hsh & _).
  exists Z. split; [exact HZ | exact Hsh].
Defined.

Lemma feasibility_indicator_conjunction_witness :
  compute_feasibility_indicator (Some ex_constraints) ex_samples []
  = (inr (tabulate [2%nat]
            (fun j => forallb (fun c => Rltb (nth j (data (c ex_samples)) 0) 0)
                        ex_constraints)),
     [Invoked 0%nat; Invoked 1%nat]).
Proof.
  exact (proj1 (feasibility_indicator_conjunction ex_constraints ex_samples []
                  ex_respects)).
Defined.

Lemma soft_eval_constraint_spec_witness :
  soft_eval_constraint ex_obj 1 []
  = (inr (tmap (fun x => sigmoid (- x / 1)) ex_obj), [Warned deprecation])
  /\ soft_eval_constraint ex_obj 0 []
     = (inl (ValueError positive_msg), [Warned deprecation]).
Proof.
  split.
  - exact (proj1 (proj2 (soft_eval_constraint_spec logexpit ex_obj 1 []) Rlt_0_1)).
  - exact (proj1 (soft_eval_constraint_spec logexpit ex_obj 0 []) (Rle_refl 0)).
Defined.

Lemma smoothed_indicator_no_constraints_witness :
  compute_smoothed_feasibility_indicator logexpit [] ex_samples (EtaFloat (-1))
    true false []
  = (inr (full [2%nat] 0), [])
  /\ compute_smoothed_feasibility_indicator logexpit [] ex_samples (EtaFloat (-1))
       false false []
     = (inr (full [2%nat] 1), [])
  /\ compute_feasibility_indicator (Some []) ex_samples [] = (inr (full [2%nat] true), []).
Proof.
  apply (smoothed_indicator_no_constraints logexpit ex_samples (-1) false [2%nat] 2 []).
  - exact ex_shape.
  - lia.
Defined.

(** * Further properties of the module *)

Section Coverage.

Variable log_fatmoid : R -> R.

(** ** Validation, indexing and the order of the effects *)

Lemma smoothed_count_mismatch (cs : list constraint) (samples : tensor R)
    (es : list R) (log fat : bool) (tr : trace) :
  length es <> length cs ->
  compute_smoothed_feasibility_indicator log_fatmoid cs samples (EtaTensor es) log fat tr
  = (inl (ValueError count_mismatch_msg), tr).
Proof.
  intros Hne. unfold compute_smoothed_feasibility_indicator.
  destruct (Nat.eqb_spec (length es) (length cs)) as [Heq|_]; [contradiction|].
  reflexivity.
Qed.

Lemma smoothed_not_positive (cs : list constraint) (samples : tensor R)
    (eta : eta_arg) (log fat : bool) (tr : trace) :
  length (etas_of (length cs) eta) = length cs ->
  Exists (fun e => e <= 0) (etas_of (length cs) eta) ->
  compute_smoothed_feasibility_indicator log_fatmoid cs samples eta log fat tr
  = (inl (ValueError positive_msg), tr).
Proof.
  intros Heq Hex. unfold compute_smoothed_feasibility_indicator.
  change (match eta with EtaFloat e => repeat e (length cs) | EtaTensor es => es end)
    with (etas_of (length cs) eta).
  rewrite Heq, Nat.eqb_refl. cbn [negb].
  destruct (forallb (fun e => Rltb 0 e) (etas_of (length cs) eta)) eqn:Hall;
    [|reflexivity].
  apply forallb_pos in Hall. apply Exists_exists in Hex as [e [Hin He]].
  rewrite Forall_forall in Hall. specialize (Hall e Hin). lra.
Qed.

(** A sample batch without an outcome axis to index: the temperatures are
    checked first, then [samples[..., 0]] raises, and no callable has been
    invoked.  The hard indicator never indexes the batch and returns. *)
Theorem smoothed_indicator_index_error (cs : list constraint) (samples : tensor R)
    (eta : eta_arg) (log fat : bool) (tr : trace) :
  valid_eta (length cs) eta ->
  shape samples = [] \/ (exists batch, shape samples = batch ++ [0%nat]) ->
  compute_smoothed_feasibility_indicator log_fatmoid cs samples eta log fat tr
  = (inl IndexError, tr)
  /\ exists ind,
       compute_feasibility_indicator None samples tr = (inr ind, tr)
       /\ shape ind = removelast (shape samples).
Proof.
  intros [Hlen Hpos] Hs. split.
  - unfold compute_smoothed_feasibility_indicator.
    change (match eta with EtaFloat e => repeat e (length cs) | EtaTensor es => es end)
      with (etas_of (length cs) eta).
    rewrite Hlen, Nat.eqb_refl. cbn [negb].
    apply forallb_pos in Hpos. rewrite Hpos. cbn [negb].
    unfold bind, lift, select_last0.
    destruct Hs as [Hs | [batch Hs]]; rewrite Hs.
    + reflexivity.
    + rewrite rev_app_distr. reflexivity.
  - eexists. split; reflexivity.
Qed.

(** The non-log variant is the log variant followed by an exponential:
    same exception, same trace, and on success the elementwise exponential
    of the log result, whatever the inputs. *)
Theorem smoothed_indicator_exp_log (cs : list constraint) (samples : tensor R)
    (eta : eta_arg) (fat : bool) (tr : trace) :
  compute_smoothed_feasibility_indicator log_fatmoid cs samples eta false fat tr
  = match compute_smoothed_feasibility_indicator log_fatmoid cs samples eta true fat tr
    with
    | (inr lw, tr') => (inr (tmap exp lw), tr')
    | (inl err, tr') => (inl err, tr')
    end.
Proof.
  unfold compute_smoothed_feasibility_indicator.
  destruct (negb (length _ =? length cs)%nat); [reflexivity|].
  destruct (negb (forallb _ _)); [reflexivity|].
  unfold bind at 1 3. unfold lift.
  destruct (select_last0 samples) as [err|x0]; [reflexivity|].
  unfold bind.
  destruct (smoothed_loop _ samples 0 _ (zeros_like x0) tr) as [[err|acc] tr1];
    reflexivity.
Qed.

Lemma smoothed_loop_trace (ls : R -> R) (samples : tensor R)
    (ces : list (constraint * R)) :
  forall (i : nat) (acc : tensor R) (tr : trace),
  exists n, (n <= length ces)%nat
    /\ snd (smoothed_loop ls samples i ces acc tr) = tr ++ map Invoked (seq i n)
    /\ forall r, fst (smoothed_loop ls samples i ces acc tr) = inr r -> n = length ces.
Proof.
  induction ces as [|[c e] rest IH]; intros i acc tr.
  - exists 0%nat. cbn. rewrite app_nil_r. repeat split; auto.
  - cbn [smoothed_loop]. unfold bind at 1. unfold invoke, bind, tell, ret.
    unfold lift at 1.
    destruct (tadd acc (tmap ls (tmap (fun x => x / e) (tmap Ropp (c samples)))))
      as [err|acc1].
    + exists 1%nat. cbn. repeat split; [lia | discriminate].
    + destruct (IH (S i) acc1 (tr ++ [Invoked i])) as (n & Hn & Htr & Hok).
      exists (S n). split; [cbn; lia|]. split.
      * rewrite Htr. apply trace_step.
      * intros r Hr. cbn [length]. f_equal. apply (Hok r Hr).
Qed.

(** Whatever the inputs, and whether the call returns or raises, the
    smoothed indicator extends the trace by the invocations of an initial
    segment of the constraint list, each callable once and in list order;
    when it returns, the segment is the whole list. *)
Theorem smoothed_indicator_invocations (cs : list constraint) (samples : tensor R)
    (eta : eta_arg) (log fat : bool) (tr : trace) :
  exists n, (n <= length cs)%nat
    /\ snd (compute_smoothed_feasibility_indicator log_fatmoid cs samples eta log fat tr)
       = tr ++ map Invoked (seq 0 n)
    /\ forall w,
         fst (compute_smoothed_feasibility_indicator log_fatmoid cs samples eta log fat tr)
         = inr w ->
         n = length cs.
Proof.
  unfold compute_smoothed_feasibility_indicator.
  set (etas := match eta with
               | EtaFloat e => repeat e (length cs)
               | EtaTensor es => es
               end).
  destruct (Nat.eqb_spec (length etas) (length cs)) as [Hlen|_]; cbn [negb].
  2:{ exists 0%nat. cbn. rewrite app_nil_r. repeat split; [lia | discriminate]. }
  destruct (negb (forallb _ etas)).
  { exists 0%nat. cbn. rewrite app_nil_r. repeat split; [lia | discriminate]. }
  unfold bind at 1. unfold lift.
  destruct (select_last0 samples) as [err|x0].
  { exists 0%nat. cbn. rewrite app_nil_r. repeat split; [lia | discriminate]. }
  unfold bind.
  destruct (smoothed_loop_trace (if fat then log_fatmoid else logexpit) samples
              (combine cs etas) 0 (zeros_like x0) tr) as (n & Hn & Htr & Hok).
  rewrite length_combine, Hlen, Nat.min_id in Hn, Hok.
  exists n. split; [exact Hn|].
  destruct (smoothed_loop _ samples 0 (combine cs etas) (zeros_like x0) tr)
    as [[err|acc] tr1]; cbn [fst snd] in *.
  - split; [exact Htr | discriminate].
  - split; [exact Htr|]. intros _ _. apply (Hok acc eq_refl).
Qed.

(** The two applications hand the validation errors of the smoothed
    indicator on unchanged: a temperature tensor of the wrong length or
    with a value that is not strictly positive makes [apply_constraints]
    and [apply_constraints_nonnegative_soft] raise the same [ValueError],
    before any callable is invoked and whatever the objective. *)
Theorem apply_constraints_validation (obj : tensor R) (cs : list constraint)
    (samples : tensor R) (M0 : R) (es : list R) (tr : trace) :
  (length es <> length cs ->
   apply_constraints log_fatmoid obj cs samples M0 (EtaTensor es) tr
   = (inl (ValueError count_mismatch_msg), tr)
   /\ apply_constraints_nonnegative_soft log_fatmoid obj cs samples (EtaTensor es) tr
      = (inl (ValueError count_mismatch_msg), tr))
  /\ (length es = length cs -> Exists (fun e => e <= 0) es ->
      apply_constraints log_fatmoid obj cs samples M0 (EtaTensor es) tr
      = (inl (ValueError positive_msg), tr)
      /\ apply_constraints_nonnegative_soft log_fatmoid obj cs samples (EtaTensor es) tr
         = (inl (ValueError positive_msg), tr)).
Proof.
  split.
  - intros Hne. unfold apply_constraints, apply_constraints_nonnegative_soft, bind.
    rewrite !smoothed_count_mismatch by exact Hne. split; reflexivity.
  - intros Heq Hex. unfold apply_constraints, apply_constraints_nonnegative_soft, bind.
    rewrite !(smoothed_not_positive cs samples (EtaTensor es)) by assumption.
    split; reflexivity.
Qed.

(** ** The smoothed weight as a product of sigmoids *)



Lemma sigmoid_unit (x : R) : 0 < sigmoid x <= 1.
Proof. split; [apply sigmoid_pos | left; apply sigmoid_lt_1]. Qed.


Lemma Rprod_unit (l : list R) :
  Forall (fun x => 0 < x <= 1) l -> 0 < Rprod l <= 1.
Proof.
  induction 1 as [|x l Hx _ IH]; unfold Rprod in *; cbn; [lra | nra].
Qed.




Lemma Rsum_app (l1 l2 : list R) : Rsum (l1 ++ l2) = Rsum l1 + Rsum l2.
Proof.
  induction l1 as [|x l1 IH]; unfold Rsum in *; cbn; [lra|]. rewrite IH. lra.
Qed.

Lemma Rsum_perm (l1 l2 : list R) : Permutation l1 l2 -> Rsum l1 = Rsum l2.
Proof.
  induction 1 as [|x l1 l2 _ IH|x y l|l1 l2 l3 _ IH1 _ IH2]; unfold Rsum in *; cbn;
    lra.
Qed.

Lemma combine_app_eq {A B} (la1 la2 : list A) (lb1 lb2 : list B) :
  length lb1 = length la1 ->
  combine (la1 ++ la2) (lb1 ++ lb2) = combine la1 lb1 ++ combine la2 lb2.
Proof.
  revert lb1. induction la1 as [|a la1 IH]; intros [|b lb1] Hlen; cbn in *;
    try discriminate; [reflexivity|].
  f_equal. apply IH. lia.
Qed.

Lemma map_fst_combine_eq {A B} (la : list A) (lb : list B) :
  length lb = length la -> map fst (combine la lb) = la.
Proof.
  revert lb. induction la as [|a la IH]; intros [|b lb] Hlen; cbn in *;
    try discriminate; [reflexivity|].
  f_equal. apply IH. lia.
Qed.

Lemma map_snd_combine_eq {A B} (la : list A) (lb : list B) :
  length lb = length la -> map snd (combine la lb) = lb.
Proof.
  revert lb. induction la as [|a la IH]; intros [|b lb] Hlen; cbn in *;
    try discriminate; [reflexivity|].
  f_equal. apply IH. lia.
Qed.

Lemma weight_prod (samples : tensor R) (ces : list (constraint * R)) (j : nat) :
  weight samples ces j
  = Rprod (map (fun ce => sigmoid (- nth j (data (fst ce samples)) 0 / snd ce)) ces).
Proof.
  unfold weight, log_feasibility. rewrite exp_Rsum, map_map. f_equal.
  apply map_ext. intros ce. apply exp_logexpit.
Qed.

Lemma weight_factors_unit (samples : tensor R) (ces : list (constraint * R)) (j : nat) :
  Forall (fun x => 0 < x <= 1)
    (map (fun ce => sigmoid (- nth j (data (fst ce samples)) 0 / snd ce)) ces).
Proof.
  apply Forall_forall. intros x Hx. apply in_map_iff in Hx as [ce [<- _]].
  apply sigmoid_unit.
Qed.

(** The non-log, non-fat smoothed indicator on inputs of the data model. *)
Lemma smoothed_weight_value (cs : list constraint) (samples : tensor R)
    (eta : eta_arg) (batch : list nat) (m : nat) :
  valid_eta (length cs) eta ->
  shape samples = batch ++ [m] -> (0 < m)%nat ->
  respects batch samples cs ->
  run (compute_smoothed_feasibility_indicator log_fatmoid cs samples eta false false)
  = inr (tabulate batch (weight samples (combine cs (etas_of (length cs) eta)))).
Proof.
  intros Hv Hs Hm Hcs. unfold run.
  rewrite (smoothed_indicator_spec log_fatmoid cs samples eta false false batch m []
             Hv Hs Hm Hcs).
  reflexivity.
Qed.

(** The hard indicator on inputs of the data model. *)
Lemma feasibility_value (cs : list constraint) (samples : tensor R)
    (batch : list nat) (m : nat) :
  shape samples = batch ++ [m] ->
  respects batch samples cs ->
  run (compute_feasibility_indicator (Some cs) samples)
  = inr (tabulate batch
           (fun j => forallb (fun c => Rltb (nth j (data (c samples)) 0) 0) cs)).
Proof.
  intros Hs Hcs. unfold run, compute_feasibility_indicator.
  rewrite Hs, removelast_last.
  rewrite (feasibility_loop_spec samples batch cs 0 _ [] Hcs) by apply shaped_full.
  cbn [fst]. f_equal. apply tabulate_ext. intros j Hj.
  rewrite full_eq_tabulate, nth_tabulate by exact Hj. reflexivity.
Qed.

(** ** The smoothed indicator against the hard one *)



(** ** Lists of constraints as sets *)

Lemma log_feasibility_app (ls : R -> R) (samples : tensor R)
    (ces1 ces2 : list (constraint * R)) (j : nat) :
  log_feasibility ls samples (ces1 ++ ces2) j
  = log_feasibility ls samples ces1 j + log_feasibility ls samples ces2 j.
Proof. unfold log_feasibility. rewrite map_app. apply Rsum_app. Qed.

(** Splitting the constraint list (and the temperature tensor with it)
    splits the smoothed indicator: the result for the concatenated lists
    is the sum of the two results with [log], and their product without,
    for either kernel. *)
Theorem smoothed_indicator_app (cs1 cs2 : list constraint) (etas1 etas2 : list R)
    (samples : tensor R) (fat : bool) (batch : list nat) (m : nat) :
  length etas1 = length cs1 -> length etas2 = length cs2 ->
  Forall (fun e => 0 < e) etas1 -> Forall (fun e => 0 < e) etas2 ->
  shape samples = batch ++ [m] -> (0 < m)%nat ->
  respects batch samples cs1 -> respects batch samples cs2 ->
  exists w w1 w2 lw lw1 lw2 : tensor R,
    run (compute_smoothed_feasibility_indicator log_fatmoid (cs1 ++ cs2) samples
           (EtaTensor (etas1 ++ etas2)) false fat) = inr w
    /\ run (compute_smoothed_feasibility_indicator log_fatmoid cs1 samples
              (EtaTensor etas1) false fat) = inr w1
    /\ run (compute_smoothed_feasibility_indicator log_fatmoid cs2 samples
              (EtaTensor etas2) false fat) = inr w2
    /\ tmul w1 w2 = inr w
    /\ run (compute_smoothed_feasibility_indicator log_fatmoid (cs1 ++ cs2) samples
              (EtaTensor (etas1 ++ etas2)) true fat) = inr lw
    /\ run (compute_smoothed_feasibility_indicator log_fatmoid cs1 samples
              (EtaTensor etas1) true fat) = inr lw1
    /\ run (compute_smoothed_feasibility_indicator log_fatmoid cs2 samples
              (EtaTensor etas2) true fat) = inr lw2
    /\ tadd lw1 lw2 = inr lw.
Proof.
  intros Hl1 Hl2 Hp1 Hp2 Hs Hm Hc1 Hc2.
  assert (Hv1 : valid_eta (length cs1) (EtaTensor etas1)) by (split; assumption).
  assert (Hv2 : valid_eta (length cs2) (EtaTensor etas2)) by (split; assumption).
  assert (Hv : valid_eta (length (cs1 ++ cs2)) (EtaTensor (etas1 ++ etas2))).
  { split; cbn [etas_of]; [rewrite !length_app; lia | apply Forall_app; split; assumption]. }
  assert (Hc : respects batch samples (cs1 ++ cs2))
    by (apply Forall_app; split; assumption).
  eexists _, _, _, _, _, _. unfold run.
  rewrite !(smoothed_indicator_spec log_fatmoid (cs1 ++ cs2) samples _ _ fat batch m []
              Hv Hs Hm Hc).
  rewrite !(smoothed_indicator_spec log_fatmoid cs1 samples _ _ fat batch m []
              Hv1 Hs Hm Hc1).
  rewrite !(smoothed_indicator_spec log_fatmoid cs2 samples _ _ fat batch m []
              Hv2 Hs Hm Hc2).
  cbn [fst etas_of]. rewrite (combine_app_eq cs1 cs2 etas1 etas2 Hl1).
  repeat (split; [reflexivity|]).
  split; [|split; [reflexivity|]]; [|repeat (split; [reflexivity|])].
  - unfold tmul. rewrite (map2b_same 0 0 Rmult batch) by reflexivity.
    f_equal. apply tabulate_ext. intros j Hj.
    rewrite !nth_tabulate by exact Hj. rewrite log_feasibility_app.
    symmetry. apply exp_plus.
  - unfold tadd. rewrite (map2b_same 0 0 Rplus batch) by reflexivity.
    f_equal. apply tabulate_ext. intros j Hj.
    rewrite !nth_tabulate by exact Hj. symmetry. apply log_feasibility_app.
Qed.

(** The order of the (constraint, temperature) pairs does not change what
    the smoothed indicator returns: two calls whose pairs are a
    permutation of each other return the same array. *)
Theorem smoothed_indicator_permutation (cs cs' : list constraint) (etas etas' : list R)
    (samples : tensor R) (log fat : bool) (batch : list nat) (m : nat) :
  length etas = length cs -> length etas' = length cs' ->
  Permutation (combine cs etas) (combine cs' etas') ->
  Forall (fun e => 0 < e) etas ->
  shape samples = batch ++ [m] -> (0 < m)%nat ->
  respects batch samples cs ->
  exists w : tensor R,
    run (compute_smoothed_feasibility_indicator log_fatmoid cs samples
           (EtaTensor etas) log fat) = inr w
    /\ run (compute_smoothed_feasibility_indicator log_fatmoid cs' samples
              (EtaTensor etas') log fat) = inr w.
Proof.
  intros Hl Hl' Hperm Hpos Hs Hm Hcs.
  assert (Hpc : Permutation cs cs').
  { rewrite <- (map_fst_combine_eq cs etas Hl), <- (map_fst_combine_eq cs' etas' Hl').
    apply Permutation_map, Hperm. }
  assert (Hpe : Permutation etas etas').
  { rewrite <- (map_snd_combine_eq cs etas Hl), <- (map_snd_combine_eq cs' etas' Hl').
    apply Permutation_map, Hperm. }
  assert (Hv : valid_eta (length cs) (EtaTensor etas)) by (split; assumption).
  assert (Hv' : valid_eta (length cs') (EtaTensor etas')).
  { split; [exact Hl' | exact (Permutation_Forall Hpe Hpos)]. }
  assert (Hcs' : respects batch samples cs') by exact (Permutation_Forall Hpc Hcs).
  eexists. unfold run.
  rewrite (smoothed_indicator_spec log_fatmoid cs samples _ log fat batch m []
             Hv Hs Hm Hcs).
  rewrite (smoothed_indicator_spec log_fatmoid cs' samples _ log fat batch m []
             Hv' Hs Hm Hcs').
  cbn [fst etas_of]. split; [reflexivity|]. f_equal.
  apply tabulate_ext. intros j _. cbn zeta.
  assert (Heq : log_feasibility (kernel log_fatmoid fat) samples (combine cs' etas') j
                = log_feasibility (kernel log_fatmoid fat) samples (combine cs etas) j).
  { unfold log_feasibility. apply Rsum_perm, Permutation_map, Permutation_sym, Hperm. }
  rewrite Heq. reflexivity.
Qed.

Lemma forallb_perm {A} (f : A -> bool) (l1 l2 : list A) :
  Permutation l1 l2 -> forallb f l1 = forallb f l2.
Proof.
  induction 1 as [|x l1 l2 _ IH|x y l|l1 l2 l3 _ IH1 _ IH2]; cbn.
  - reflexivity.
  - rewrite IH. reflexivity.
  - destruct (f x), (f y); reflexivity.
  - congruence.
Qed.

(** The hard indicator treats the list as a set of conditions: for
    callables of the data model the result for a concatenation is the
    logical and of the results for the parts, and a permutation of the
    list returns the same array. *)
Theorem feasibility_indicator_app_perm (cs1 cs2 : list constraint)
    (samples : tensor R) (batch : list nat) (m : nat) :
  shape samples = batch ++ [m] ->
  respects batch samples cs1 -> respects batch samples cs2 ->
  (exists i i1 i2 : tensor bool,
      run (compute_feasibility_indicator (Some (cs1 ++ cs2)) samples) = inr i
      /\ run (compute_feasibility_indicator (Some cs1) samples) = inr i1
      /\ run (compute_feasibility_indicator (Some cs2) samples) = inr i2
      /\ logical_and i1 i2 = inr i)
  /\ (forall cs', Permutation cs1 cs' ->
        run (compute_feasibility_indicator (Some cs') samples)
        = run (compute_feasibility_indicator (Some cs1) samples)).
Proof.
  intros Hs Hc1 Hc2. split.
  - assert (Hc : respects batch samples (cs1 ++ cs2))
      by (apply Forall_app; split; assumption).
    eexists _, _, _.
    rewrite (feasibility_value (cs1 ++ cs2) samples batch m Hs Hc).
    rewrite (feasibility_value cs1 samples batch m Hs Hc1).
    rewrite (feasibility_value cs2 samples batch m Hs Hc2).
    repeat (split; [reflexivity|]).
    unfold logical_and. rewrite (map2b_same false false andb batch) by reflexivity.
    f_equal. apply tabulate_ext. intros j Hj.
    rewrite !nth_tabulate by exact Hj. symmetry. apply forallb_app.
  - intros cs' Hperm.
    assert (Hc' : respects batch samples cs') by exact (Permutation_Forall Hperm Hc1).
    rewrite (feasibility_value cs' samples batch m Hs Hc').
    rewrite (feasibility_value cs1 samples batch m Hs Hc1).
    f_equal. apply tabulate_ext. intros j _.
    apply forallb_perm, Permutation_sym, Hperm.
Qed.

(** ** The range of the two applications *)

Lemma smoothed_nonlog_pos (cs : list constraint) (samples : tensor R) (eta : eta_arg)
    (fat : bool) (tr : trace) (w : tensor R) (tr' : trace) :
  compute_smoothed_feasibility_indicator log_fatmoid cs samples eta false fat tr
  = (inr w, tr') ->
  Forall (fun x => 0 < x) (data w).
Proof.
  intros Hrun. unfold compute_smoothed_feasibility_indicator in Hrun.
  destruct (negb (length _ =? length cs)%nat); [discriminate|].
  destruct (negb (forallb _ _)); [discriminate|].
  unfold bind at 1 in Hrun. unfold lift at 1 in Hrun.
  destruct (select_last0 samples) as [err|x0]; [discriminate|].
  unfold bind in Hrun.
  destruct (smoothed_loop _ samples 0 _ (zeros_like x0) tr) as [[err|acc] tr1];
    [discriminate|].
  unfold ret in Hrun. injection Hrun as <- _.
  cbn [tmap data]. apply Forall_forall. intros x Hx.
  apply in_map_iff in Hx as [y [<- _]]. apply exp_pos.
Qed.

Lemma nonnegative_soft_nonneg (obj : tensor R) (cs : list constraint)
    (samples : tensor R) (eta : eta_arg) (tr : trace) (r : tensor R) (tr' : trace) :
  apply_constraints_nonnegative_soft log_fatmoid obj cs samples eta tr = (inr r, tr') ->
  Forall (fun y => 0 <= y) (data r).
Proof.
  intros Hrun. unfold apply_constraints_nonnegative_soft, bind in Hrun.
  destruct (compute_smoothed_feasibility_indicator log_fatmoid cs samples eta false false tr)
    as [[err|w] tr1] eqn:Hw; [discriminate|].
  apply smoothed_nonlog_pos in Hw.
  unfold lift in Hrun. injection Hrun as Hmul _. unfold tmul in Hmul.
  apply (map2b_Forall (fun x => 0 <= x) (fun x => 0 <= x) (fun x => 0 <= x)
           0 0 Rmult _ _ r) in Hmul; try assumption; try lra.
  - intros x y Hx Hy. apply Rmult_le_pos; assumption.
  - cbn [tmap data]. apply Forall_forall. intros x Hx.
    apply in_map_iff in Hx as [y [<- _]]. apply Rmax_r.
  - assert (Hd : Forall (fun x => 0 <= x) (data w)).
    { eapply Forall_impl; [|exact Hw]. intros x Hx. lra. }
    destruct (dim obj =? dim samples)%nat; exact Hd.
Qed.

(** [apply_constraints] on inputs of the data model, for an objective with
    and without a trailing per-outcome axis. *)
Lemma apply_constraints_value (obj : tensor R) (cs : list constraint)
    (samples : tensor R) (M0 : R) (eta : eta_arg) (batch : list nat) (m : nat)
    (tr : trace) :
  valid_eta (length cs) eta ->
  shape samples = batch ++ [m] -> (0 < m)%nat ->
  respects batch samples cs ->
  let ces := combine cs (etas_of (length cs) eta) in
  let tr' := tr ++ map Invoked (seq 0 (length cs)) in
  (forall m', shaped (batch ++ [m']) obj ->
     apply_constraints log_fatmoid obj cs samples M0 eta tr
     = (inr (tabulate (batch ++ [m'])
               (fun i => Rmax (nth i (data obj) 0 + M0) 0 * weight samples ces (i / m')
                         + - M0)),
        tr'))
  /\ (shaped batch obj ->
      apply_constraints log_fatmoid obj cs samples M0 eta tr
      = (inr (tabulate batch
                (fun i => Rmax (nth i (data obj) 0 + M0) 0 * weight samples ces i
                          + - M0)),
         tr')).
Proof.
  intros Hv Hs Hm Hcs ces tr'.
  destruct (nonnegative_soft_value log_fatmoid (tmap (fun x => x + M0) obj) cs samples
              eta batch m tr Hv Hs Hm Hcs) as [Hwide Hflat].
  fold ces tr' in Hwide, Hflat.
  unfold apply_constraints, bind. split.
  - intros m' Hobj. rewrite (Hwide m' (shaped_tmap _ _ _ Hobj)). unfold ret.
    rewrite tmap_tabulate. f_equal. f_equal. apply tabulate_ext. intros i Hi.
    rewrite (nth_tmap _ (batch ++ [m']) obj i 0 0 Hobj Hi). reflexivity.
  - intros Hobj. rewrite (Hflat (shaped_tmap _ _ _ Hobj)). unfold ret.
    rewrite tmap_tabulate. f_equal. f_equal. apply tabulate_ext. intros i Hi.
    rewrite (nth_tmap _ batch obj i 0 0 Hobj Hi). reflexivity.
Qed.

Lemma weight_unit (samples : tensor R) (ces : list (constraint * R)) (j : nat) :
  0 < weight samples ces j <= 1.
Proof. rewrite weight_prod. apply Rprod_unit, weight_factors_unit. Qed.

(** The non-negative-domain application never returns a negative value,
    whatever the inputs; on inputs of the data model every entry of the
    result lies between 0 and the objective clamped at zero, so an entry
    where the objective is not positive comes out as exactly 0. *)
Theorem nonnegative_soft_range (obj : tensor R) (cs : list constraint)
    (samples : tensor R) (eta : eta_arg) :
  (forall tr r tr',
      apply_constraints_nonnegative_soft log_fatmoid obj cs samples eta tr = (inr r, tr') ->
      Forall (fun y => 0 <= y) (data r))
  /\ (forall batch m,
        valid_eta (length cs) eta ->
        shape samples = batch ++ [m] -> (0 < m)%nat ->
        respects batch samples cs ->
        shaped batch obj \/ (exists m', shaped (batch ++ [m']) obj) ->
        exists r,
          run (apply_constraints_nonnegative_soft log_fatmoid obj cs samples eta) = inr r
          /\ shaped (shape obj) r
          /\ forall i, (i < numel (shape obj))%nat ->
               0 <= nth i (data r) 0 <= Rmax (nth i (data obj) 0) 0
               /\ (nth i (data obj) 0 <= 0 -> nth i (data r) 0 = 0)).
Proof.
  split; [intros tr r tr'; apply nonnegative_soft_nonneg|].
  intros batch m Hv Hs Hm Hcs Hobj.
  destruct (nonnegative_soft_value log_fatmoid obj cs samples eta batch m [] Hv Hs Hm Hcs)
    as [Hwide Hflat].
  unfold run.
  destruct Hobj as [Hobj | [m' Hobj]].
  - rewrite (Hflat Hobj). destruct Hobj as [Hsh _]. rewrite Hsh. cbn [fst].
    eexists. split; [reflexivity|]. split; [apply shaped_tabulate|].
    intros i Hi. rewrite nth_tabulate by exact Hi.
    pose proof (weight_unit samples (combine cs (etas_of (length cs) eta)) i) as Hw.
    pose proof (Rmax_r (nth i (data obj) 0) 0) as Hr.
    split; [nra|]. intros Hle. rewrite Rmax_right by exact Hle. ring.
  - rewrite (Hwide m' Hobj). destruct Hobj as [Hsh _]. rewrite Hsh. cbn [fst].
    eexists. split; [reflexivity|]. split; [apply shaped_tabulate|].
    intros i Hi. rewrite nth_tabulate by exact Hi.
    pose proof (weight_unit samples (combine cs (etas_of (length cs) eta)) (i / m'))
      as Hw.
    pose proof (Rmax_r (nth i (data obj) 0) 0) as Hr.
    split; [nra|]. intros Hle. rewrite Rmax_right by exact Hle. ring.
Qed.


(** [apply_constraints] never returns a value below [-M], whatever the
    inputs; and on inputs of the data model an entry whose objective is at
    most [-M] (an infeasible cost chosen too small) comes out as exactly
    [-M], whether it is feasible or not. *)
Theorem apply_constraints_floor (obj : tensor R) (cs : list constraint)
    (samples : tensor R) (M0 : R) (eta : eta_arg) :
  (forall tr r tr',
      apply_constraints log_fatmoid obj cs samples M0 eta tr = (inr r, tr') ->
      Forall (fun y => - M0 <= y) (data r))
  /\ (forall batch m,
        valid_eta (length cs) eta ->
        shape samples = batch ++ [m] -> (0 < m)%nat ->
        respects batch samples cs ->
        shaped batch obj \/ (exists m', shaped (batch ++ [m']) obj) ->
        exists r,
          run (apply_constraints log_fatmoid obj cs samples M0 eta) = inr r
          /\ forall i, (i < numel (shape obj))%nat ->
               nth i (data obj) 0 + M0 <= 0 -> nth i (data r) 0 = - M0).
Proof.
  split.
  - intros tr r tr' Hrun. unfold apply_constraints, bind in Hrun.
    destruct (apply_constraints_nonnegative_soft log_fatmoid _ cs samples eta tr)
      as [[err|r0] tr1] eqn:Hsoft; [discriminate|].
    apply nonnegative_soft_nonneg in Hsoft.
    unfold ret in Hrun. injection Hrun as <- _.
    cbn [tmap data]. apply Forall_forall. intros y Hy.
    apply in_map_iff in Hy as [x [<- Hin]].
    rewrite Forall_forall in Hsoft. specialize (Hsoft x Hin). lra.
  - intros batch m Hv Hs Hm Hcs Hobj.
    destruct (apply_constraints_value obj cs samples M0 eta batch m [] Hv Hs Hm Hcs)
      as [Hwide Hflat].
    unfold run. destruct Hobj as [Hobj | [m' Hobj]].
    + rewrite (Hflat Hobj). destruct Hobj as [Hsh _]. rewrite Hsh. cbn [fst].
      eexists. split; [reflexivity|]. intros i Hi Hle.
      rewrite nth_tabulate by exact Hi. rewrite Rmax_right by exact Hle. ring.
    + rewrite (Hwide m' Hobj). destruct Hobj as [Hsh _]. rewrite Hsh. cbn [fst].
      eexists. split; [reflexivity|]. intros i Hi Hle.
      rewrite nth_tabulate by exact Hi. rewrite Rmax_right by exact Hle. ring.
Qed.

(** ** The objective weights transform *)

Lemma weights_transform_value (w : list R) (Y : tensor R) (X : option (tensor R))
    (batch : list nat) :
  shape Y = batch ++ [length w] ->
  get_objective_weights_transform (Some w) Y X
  = inr (tabulate batch
           (fun i => Rsum (map (fun j => nth (i * length w + j) (data Y) 0 * nth j w 0)
                               (seq 0 (length w))))).
Proof.
  intros HY. unfold get_objective_weights_transform, einsum_m.
  rewrite HY, rev_app_distr, removelast_last. cbn [rev app].
  rewrite Nat.eqb_refl. cbn [orb]. f_equal. apply tabulate_ext. intros i _.
  destruct (Nat.eqb_spec (length w) 1) as [H1|_]; [|reflexivity].
  rewrite H1. reflexivity.
Qed.

Lemma Rsum_map_plus {A} (f g : A -> R) (l : list A) :
  Rsum (map (fun x => f x + g x) l) = Rsum (map f l) + Rsum (map g l).
Proof.
  induction l as [|x l IH]; unfold Rsum in *; cbn; [lra|]. rewrite IH. lra.
Qed.

Lemma Rsum_map_scal {A} (a : R) (f : A -> R) (l : list A) :
  Rsum (map (fun x => a * f x) l) = a * Rsum (map f l).
Proof.
  induction l as [|x l IH]; unfold Rsum in *; cbn; [lra|]. rewrite IH. lra.
Qed.

Lemma outcome_index (batch : list nat) (m i j : nat) :
  (i < numel batch)%nat -> (j < m)%nat -> (i * m + j < numel (batch ++ [m]))%nat.
Proof.
  intros Hi Hj. rewrite numel_app. change (numel [m]) with (m * 1)%nat. nia.
Qed.

(** The callable built without weights only ever drops an outcome axis of
    size 1: on an array whose last axis has another size, or on a 0-dim
    array, it returns its argument unchanged and raises nothing; and, being
    a one-argument lambda, it raises a [TypeError] when it is also given
    the candidate locations [X], which the weighted callable ignores. *)
Theorem identity_transform_edges (Y : tensor R) :
  ((forall batch, shape Y <> batch ++ [1%nat]) ->
   get_objective_weights_transform None Y None = inr Y)
  /\ (forall X, get_objective_weights_transform None Y (Some X) = inl TypeError)
  /\ (forall w X,
        get_objective_weights_transform (Some w) Y (Some X)
        = get_objective_weights_transform (Some w) Y None).
Proof.
  split; [|split; reflexivity].
  intros Hne. unfold get_objective_weights_transform, squeeze_last.
  destruct (rev (shape Y)) as [|d rest] eqn:Hrev; [reflexivity|].
  destruct d as [|[|d]]; try reflexivity.
  exfalso. apply (Hne (rev rest)).
  rewrite <- (rev_involutive (shape Y)), Hrev. reflexivity.
Qed.

(** The weighted callable is linear in the samples: on two arrays of
    shape [batch x m] it maps their sum to the sum of their images, and it
    maps a multiple of an array to the same multiple of its image. *)
Theorem weights_transform_linear (w : list R) (Y1 Y2 : tensor R) (a : R)
    (X : option (tensor R)) (batch : list nat) :
  shaped (batch ++ [length w]) Y1 ->
  shaped (batch ++ [length w]) Y2 ->
  exists Ysum Z1 Z2 Z : tensor R,
    tadd Y1 Y2 = inr Ysum
    /\ get_objective_weights_transform (Some w) Y1 X = inr Z1
    /\ get_objective_weights_transform (Some w) Y2 X = inr Z2
    /\ get_objective_weights_transform (Some w) Ysum X = inr Z
    /\ tadd Z1 Z2 = inr Z
    /\ get_objective_weights_transform (Some w) (tmap (Rmult a) Y1) X
       = inr (tmap (Rmult a) Z1).
Proof.
  intros H1 H2. destruct H1 as [Hs1 Hl1]. destruct H2 as [Hs2 Hl2].
  eexists _, _, _, _.
  split; [unfold tadd; apply (map2b_same 0 0 Rplus (batch ++ [length w])); assumption|].
  split; [apply weights_transform_value, Hs1|].
  split; [apply weights_transform_value, Hs2|].
  split; [apply weights_transform_value; reflexivity|].
  split.
  - unfold tadd. rewrite (map2b_same 0 0 Rplus batch) by reflexivity.
    f_equal. apply tabulate_ext. intros i Hi.
    rewrite !nth_tabulate by exact Hi. rewrite <- Rsum_map_plus. f_equal.
    apply map_ext_in. intros j Hj. apply in_seq in Hj.
    rewrite nth_tabulate by (apply outcome_index; lia). lra.
  - rewrite (weights_transform_value w (tmap (Rmult a) Y1) X batch) by exact Hs1.
    rewrite tmap_tabulate. f_equal. apply tabulate_ext. intros i Hi.
    rewrite <- Rsum_map_scal. f_equal.
    apply map_ext_in. intros j Hj. apply in_seq in Hj.
    rewrite (nth_tmap (Rmult a) (batch ++ [length w]) Y1 _ 0 0);
      [lra | split; assumption | apply outcome_index; lia].
Qed.

(** With a single outcome the weight only rescales: the callable built
    from the one weight [a] returns the squeezed array times [a] (so a
    negative weight flips the direction of optimisation), and the one
    built from the weight 1 returns what the callable without weights
    returns. *)
Theorem single_weight_transform (a : R) (Y : tensor R) (X : option (tensor R))
    (batch : list nat) :
  shaped (batch ++ [1%nat]) Y ->
  get_objective_weights_transform (Some [a]) Y X
  = inr (tmap (fun y => y * a) (squeeze_last Y))
  /\ get_objective_weights_transform (Some [1]) Y X
     = get_objective_weights_transform None Y None.
Proof.
  intros [Hs Hl].
  assert (Hsq : squeeze_last Y = mkTensor batch (data Y)).
  { unfold squeeze_last. rewrite Hs, rev_app_distr, removelast_last. reflexivity. }
  assert (Hb : shaped batch (mkTensor batch (data Y))).
  { split; [reflexivity|]. cbn [data]. rewrite Hl, numel_app.
    change (numel [1%nat]) with 1%nat. lia. }
  assert (Hval : forall b,
             get_objective_weights_transform (Some [b]) Y X
             = inr (tmap (fun y => y * b) (mkTensor batch (data Y)))).
  { intros b. rewrite (weights_transform_value [b] Y X batch) by exact Hs.
    rewrite (tmap_eq_tabulate _ 0 batch _ Hb). f_equal.
    apply tabulate_ext. intros i _. cbn [length seq map data nth].
    unfold Rsum. cbn [fold_right]. rewrite Nat.mul_1_r, Nat.add_0_r. lra. }
  split.
  - rewrite Hval, Hsq. reflexivity.
  - rewrite Hval. unfold get_objective_weights_transform. rewrite Hsq. f_equal.
    unfold tmap. cbn [shape data]. f_equal.
    rewrite <- (map_id (data Y)) at 2. apply map_ext. intros y. lra.
Qed.

(** ** The legacy evaluator *)

Lemma sigmoid_mono (x y : R) : x <= y -> sigmoid x <= sigmoid y.
Proof.
  intros Hxy. unfold sigmoid, Rdiv. rewrite !Rmult_1_l.
  pose proof (exp_pos (- x)) as Hx. pose proof (exp_pos (- y)) as Hy.
  apply Rinv_le_contravar; [lra|].
  assert (exp (- y) <= exp (- x)).
  { destruct Hxy as [Hlt| ->]; [left; apply exp_increasing; lra | lra]. }
  lra.
Qed.


(** ** Monotonicity of the smoothed indicator *)

Lemma weight_mono (samples : tensor R) (j : nat) (cs cs' : list constraint) :
  Forall2 (fun c c' => nth j (data (c samples)) 0 <= nth j (data (c' samples)) 0)
    cs cs' ->
  forall etas, Forall (fun e => 0 < e) etas ->
    weight samples (combine cs' etas) j <= weight samples (combine cs etas) j.
Proof.
  induction 1 as [|c c' cs cs' Hc _ IH]; intros etas Hpos.
  - apply Rle_refl.
  - destruct Hpos as [|e etas He Hpos]; [apply Rle_refl|].
    specialize (IH etas Hpos). cbn [combine].
    rewrite !weight_prod in *. cbn [map fst snd].
    change (Rprod (?x :: ?l)) with (x * Rprod l).
    pose proof (Rprod_unit _ (weight_factors_unit samples (combine cs etas) j)) as Hu.
    pose proof (Rprod_unit _ (weight_factors_unit samples (combine cs' etas) j)) as Hu'.
    pose proof (sigmoid_pos (- nth j (data (c' samples)) 0 / e)) as Hp.
    assert (Hs : sigmoid (- nth j (data (c' samples)) 0 / e)
                 <= sigmoid (- nth j (data (c samples)) 0 / e)).
    { apply sigmoid_mono. unfold Rdiv. apply Rmult_le_compat_r; [|lra].
      left. apply Rinv_0_lt_compat, He. }
    eapply Rle_trans; [apply Rmult_le_compat_l; [left; exact Hp | exact IH]|].
    apply Rmult_le_compat_r; [left; exact (proj1 Hu) | exact Hs].
Qed.

(** Raising constraint values can only lower the smoothed indicator (no
    [log], no [fat]): if at an entry every callable of a second list
    returns at least what the callable at the same position of the first
    list returns, the weight of that entry for the second list is at most
    the weight for the first, the temperatures being the same. *)
Theorem smoothed_indicator_monotone (cs cs' : list constraint) (etas : list R)
    (samples : tensor R) (batch : list nat) (m j : nat) :
  length etas = length cs ->
  Forall (fun e => 0 < e) etas ->
  shape samples = batch ++ [m] -> (0 < m)%nat ->
  respects batch samples cs -> respects batch samples cs' ->
  Forall2 (fun c c' => nth j (data (c samples)) 0 <= nth j (data (c' samples)) 0)
    cs cs' ->
  (j < numel batch)%nat ->
  exists w w' : tensor R,
    run (compute_smoothed_feasibility_indicator log_fatmoid cs samples (EtaTensor etas)
           false false) = inr w
    /\ run (compute_smoothed_feasibility_indicator log_fatmoid cs' samples
              (EtaTensor etas) false false) = inr w'
    /\ nth j (data w') 0 <= nth j (data w) 0.
Proof.
  intros Hlen Hpos Hs Hm Hcs Hcs' Hle Hj.
  assert (Hlen' : length etas = length cs').
  { rewrite Hlen. apply (Forall2_length Hle). }
  eexists _, _.
  split; [apply (smoothed_weight_value cs samples (EtaTensor etas) batch m);
          (split || idtac); assumption|].
  split; [apply (smoothed_weight_value cs' samples (EtaTensor etas) batch m);
          (split || idtac); assumption|].
  cbn [etas_of]. rewrite !nth_tabulate by exact Hj.
  apply weight_mono; assumption.
Qed.

End Coverage.

(** ** The further properties at concrete inputs *)

Lemma ex_valid_half : valid_eta (length ex_constraints) (EtaFloat (1 / 2)).
Proof. split; [reflexivity|]. cbn. repeat constructor; lra. Qed.

Lemma ex_obj_wide : shaped [2%nat] ex_obj \/ (exists m', shaped ([2%nat] ++ [m']) ex_obj).
Proof. right. exists 3%nat. split; reflexivity. Qed.

Lemma smoothed_indicator_index_error_witness :
  compute_smoothed_feasibility_indicator logexpit ex_constraints (mkTensor [] [1])
    (EtaFloat (1 / 2)) false false []
  = (inl IndexError, []).
Proof.
  apply (smoothed_indicator_index_error logexpit ex_constraints (mkTensor [] [1])
           (EtaFloat (1 / 2)) false false []).
  - exact ex_valid_half.
  - left. reflexivity.
Defined.

Lemma apply_constraints_validation_witness :
  apply_constraints logexpit ex_obj ex_constraints ex_samples 2 (EtaTensor [1]) []
  = (inl (ValueError count_mismatch_msg), [])
  /\ apply_constraints logexpit ex_obj ex_constraints ex_samples 2 (EtaTensor [1; -1]) []
     = (inl (ValueError positive_msg), []).
Proof.
  destruct (apply_constraints_validation logexpit ex_obj ex_constraints ex_samples 2
              [1] []) as [Hcount _].
  destruct (apply_constraints_validation logexpit ex_obj ex_constraints ex_samples 2
              [1; -1] []) as [_ Hpos].
  split.
  - apply Hcount. cbn. lia.
  - apply Hpos; [reflexivity|]. apply Exists_cons_tl, Exists_cons_hd. lra.
Defined.



Lemma smoothed_indicator_app_witness :
  exists w w1 w2 : tensor R,
    run (compute_smoothed_feasibility_indicator logexpit
           ([always_feasible] ++ [outcome0]) ex_samples (EtaTensor ([1] ++ [2]))
           false false) = inr w
    /\ run (compute_smoothed_feasibility_indicator logexpit [always_feasible]
              ex_samples (EtaTensor [1]) false false) = inr w1
    /\ run (compute_smoothed_feasibility_indicator logexpit [outcome0] ex_samples
              (EtaTensor [2]) false false) = inr w2
    /\ tmul w1 w2 = inr w.
Proof.
  destruct (smoothed_indicator_app logexpit [always_feasible] [outcome0] [1] [2]
              ex_samples false [2%nat] 2)
    as (w & w1 & w2 & _ & _ & _ & Hw & Hw1 & Hw2 & Hmul & _).
  - reflexivity.
  - reflexivity.
  - repeat constructor; lra.
  - repeat constructor; lra.
  - exact ex_shape.
  - lia.
  - constructor; [split; reflexivity | constructor].
  - constructor; [split; reflexivity | constructor].
  - exists w, w1, w2. repeat split; assumption.
Defined.

Lemma smoothed_indicator_permutation_witness :
  exists w : tensor R,
    run (compute_smoothed_feasibility_indicator logexpit [always_feasible; outcome0]
           ex_samples (EtaTensor [1; 2]) true false) = inr w
    /\ run (compute_smoothed_feasibility_indicator logexpit [outcome0; always_feasible]
              ex_samples (EtaTensor [2; 1]) true false) = inr w.
Proof.
  apply (smoothed_indicator_permutation logexpit [always_feasible; outcome0]
           [outcome0; always_feasible] [1; 2] [2; 1] ex_samples true false [2%nat] 2).
  - reflexivity.
  - reflexivity.
  - cbn [combine]. apply perm_swap.
  - repeat constructor; lra.
  - exact ex_shape.
  - lia.
  - exact ex_respects.
Defined.

Lemma feasibility_indicator_app_perm_witness :
  run (compute_feasibility_indicator (Some [outcome0; always_feasible]) ex_samples)
  = run (compute_feasibility_indicator (Some [always_feasible; outcome0]) ex_samples).
Proof.
  destruct (feasibility_indicator_app_perm [always_feasible; outcome0] [] ex_samples
              [2%nat] 2 ex_shape ex_respects (Forall_nil _)) as [_ Hperm].
  apply Hperm, perm_swap.
Defined.

Lemma nonnegative_soft_range_witness :
  exists r,
    run (apply_constraints_nonnegative_soft logexpit ex_obj ex_constraints ex_samples
           (EtaFloat (1 / 2))) = inr r
    /\ nth 1 (data r) 0 = 0.
Proof.
  destruct (proj2 (nonnegative_soft_range logexpit ex_obj ex_constraints ex_samples
                     (EtaFloat (1 / 2)))
              [2%nat] 2%nat ex_valid_half ex_shape (Nat.lt_0_succ 1) ex_respects
              ex_obj_wide)
    as (r & Hr & _ & Hi).
  exists r. split; [exact Hr|].
  destruct (Hi 1%nat) as [_ Hzero]; [cbn; lia|]. apply Hzero. cbn. lra.
Defined.


Lemma apply_constraints_floor_witness :
  exists r,
    run (apply_constraints logexpit ex_obj ex_constraints ex_samples 1
           (EtaFloat (1 / 2))) = inr r
    /\ nth 5 (data r) 0 = - 1.
Proof.
  destruct (proj2 (apply_constraints_floor logexpit ex_obj ex_constraints ex_samples 1
                     (EtaFloat (1 / 2)))
              [2%nat] 2%nat ex_valid_half ex_shape (Nat.lt_0_succ 1) ex_respects
              ex_obj_wide)
    as (r & Hr & Hi).
  exists r. split; [exact Hr|]. apply Hi; cbn; [lia | lra].
Defined.

Lemma identity_transform_edges_witness :
  get_objective_weights_transform None ex_samples None = inr ex_samples.
Proof.
  apply (proj1 (identity_transform_edges ex_samples)).
  intros batch Hb. apply (f_equal (fun s => last s 0%nat)) in Hb.
  rewrite last_last in Hb. discriminate Hb.
Defined.

Lemma weights_transform_linear_witness :
  exists Ysum Z1 Z : tensor R,
    tadd ex_samples ex_samples = inr Ysum
    /\ get_objective_weights_transform (Some [0.75; 0.25]) ex_samples None = inr Z1
    /\ get_objective_weights_transform (Some [0.75; 0.25]) Ysum None = inr Z
    /\ tadd Z1 Z1 = inr Z.
Proof.
  destruct (weights_transform_linear [0.75; 0.25] ex_samples ex_samples 1 None [2%nat])
    as (Ysum & Z1 & Z2 & Z & HY & HZ1 & HZ2 & HZ & Hadd & _).
  - split; reflexivity.
  - split; reflexivity.
  - exists Ysum, Z1, Z. rewrite HZ1 in HZ2. injection HZ2 as <-.
    repeat split; assumption.
Defined.

Lemma single_weight_transform_witness :
  get_objective_weights_transform (Some [-1]) (mkTensor [2; 1]%nat [3; -4]) None
  = inr (tmap (fun y => y * -1) (squeeze_last (mkTensor [2; 1]%nat [3; -4]))).
Proof.
  apply (single_weight_transform (-1) (mkTensor [2; 1]%nat [3; -4]) None [2%nat]).
  split; reflexivity.
Defined.


Lemma smoothed_indicator_monotone_witness :
  exists w w' : tensor R,
    run (compute_smoothed_feasibility_indicator logexpit [always_feasible] ex_samples
           (EtaTensor [1]) false false) = inr w
    /\ run (compute_smoothed_feasibility_indicator logexpit [outcome0] ex_samples
              (EtaTensor [1]) false false) = inr w'
    /\ nth 0 (data w') 0 <= nth 0 (data w) 0.
Proof.
  apply (smoothed_indicator_monotone logexpit [always_feasible] [outcome0] [1]
           ex_samples [2%nat] 2 0).
  - reflexivity.
  - repeat constructor; lra.
  - exact ex_shape.
  - lia.
  - constructor; [split; reflexivity | constructor].
  - constructor; [split; reflexivity | constructor].
  - constructor; [|constructor]. cbn. lra.
  - cbn. lia.
Defined.
